(** * Numerator: zero-padding renamer ([src/numerator/main.py])

    A shallow embedding of the script and the properties of its
    padding algorithm, its file and folder objects, its command-line
    configuration and its run loop.

    The file has three parts: the script itself, function by function;
    the vocabulary in which its properties are stated, with a concrete
    platform to run it on; and the properties. *)

From Stdlib Require Import String Ascii ZArith Lia Bool Arith List DecimalString
  Permutation.
Import ListNotations.

Local Open Scope list_scope.

(** ** Python strings *)

(** A [str] is a sequence of characters.  The script only ever tells apart
    the ASCII digits, ['.'], ['='], the two straight quotes and the newline
    (inside the regular expression); every other character is opaque. *)
Definition str : Type := list ascii.

Definition lit (x : string) : str := list_ascii_of_string x.
Coercion lit : string >-> str.

Definition str_eq_dec : forall a b : str, {a = b} + {a <> b} :=
  list_eq_dec ascii_dec.

Definition str_eqb (a b : str) : bool :=
  if str_eq_dec a b then true else false.

(** [bool(s)]: a string is truthy when it is not empty. *)
Definition truthy (x : str) : bool :=
  match x with [] => false | _ :: _ => true end.

(** ['c' * n] for an [int] n: the empty string when n is not positive. *)
Definition str_mul (x : str) (n : Z) : str :=
  concat (repeat x (Z.to_nat n)).

Fixpoint take_while {A} (p : A -> bool) (l : list A) : list A :=
  match l with
  | [] => []
  | a :: l' => if p a then a :: take_while p l' else []
  end.

Fixpoint drop_while {A} (p : A -> bool) (l : list A) : list A :=
  match l with
  | [] => []
  | a :: l' => if p a then drop_while p l' else l
  end.

(** ** The regular expression [DIGITS]

    [DIGITS] is a sequence of three greedy repetitions of a character
    class.  The matcher below is the backtracking one of [re]: each
    repetition first takes as many characters as it can and gives them
    back one at a time while the rest of the pattern fails. *)

Record rep : Type := { cls : ascii -> bool; at_least : nat }.

Definition star (c : ascii -> bool) : rep := {| cls := c; at_least := 0 |}.
Definition plus (c : ascii -> bool) : rep := {| cls := c; at_least := 1 |}.

Fixpoint backtrack {A} (least : nat) (k : nat -> option A) (j : nat) : option A :=
  match (if least <=? j then k j else None) with
  | Some r => Some r
  | None => match j with
            | O => None
            | S j' => backtrack least k j'
            end
  end.

(** [re_match items s pos]: the spans (start, end) of the items when the
    sequence matches a prefix of [s], which starts at offset [pos]. *)
Fixpoint re_match (items : list rep) (s : str) (pos : nat)
  : option (list (nat * nat)) :=
  match items with
  | [] => Some []
  | it :: rest =>
      backtrack (at_least it)
        (fun j => option_map (cons (pos, pos + j))
                    (re_match rest (skipn j s) (pos + j)))
        (length (take_while (cls it) s))
  end.

(** The class [[0123456789]], its complement and [.] (anything but a newline). *)
Definition is_digit (c : ascii) : bool :=
  existsb (Ascii.eqb c) (lit "0123456789").

Definition non_digit (c : ascii) : bool := negb (is_digit c).

Definition dot (c : ascii) : bool := negb (Ascii.eqb c "010"%char).

(** [DIGITS = re.compile(r'[^0123456789]*([0123456789]+).*')] *)
Definition DIGITS : list rep := [star non_digit; plus is_digit; star dot].

(** What the script reads of a match object: [start(1)], [end(1)], [groups()]. *)
Record Match : Type := { start1 : nat; end1 : nat; groups : list str }.

(** [DIGITS.match(string)]: anchored at the start only. *)
Definition DIGITS_match (string : str) : option Match :=
  match re_match DIGITS string 0 with
  | Some [_; (b, e); _] =>
      Some {| start1 := b; end1 := e;
              groups := [firstn (e - b) (skipn b string)] |}
  | _ => None
  end.

(** ** The padding algorithm *)

Definition add_padding (string : str) (padding : Z) : str :=
  match DIGITS_match string with
  | None => string
  | Some m =>
      let left := start1 m in
      let right := end1 m in
      let left_part := firstn left string in
      let right_part := skipn right string in
      let body := nth 0 (groups m) [] in
      let delta := (padding - Z.of_nat (length body))%Z in
      left_part ++ str_mul (lit "0") delta ++ body ++ right_part
  end.

Definition calculate_padding (names : list str) : Z :=
  fold_left
    (fun padding name =>
       match DIGITS_match name with
       | Some m =>
           let number := nth 0 (groups m) [] in
           Z.max padding (Z.of_nat (length number))
       | None => padding
       end)
    names 0%Z.

(** ** More of [str]: [startswith], [replace], [split], [strip], [rfind] *)

Fixpoint startswith (p s : str) : bool :=
  match p, s with
  | [], _ => true
  | _ :: _, [] => false
  | a :: p', b :: s' => Ascii.eqb a b && startswith p' s'
  end.

(** The left-to-right scan of [s.replace(old, new)] for a non-empty [old]:
    [skip] counts the characters of the occurrence just replaced that are
    still to be passed over, so occurrences never overlap. *)
Fixpoint replace_scan (old new s : str) (skip : nat) : str :=
  match s with
  | [] => []
  | c :: s' =>
      match skip with
      | S k => replace_scan old new s' k
      | O =>
          if startswith old s
          then new ++ replace_scan old new s' (length old - 1)
          else c :: replace_scan old new s' 0
      end
  end.

(** [s.replace(old, new)]: an empty [old] matches before every character
    and at the end of [s]. *)
Definition str_replace (s old new : str) : str :=
  match old with
  | [] => flat_map (fun c => new ++ [c]) s ++ new
  | _ :: _ => replace_scan old new s 0
  end.

(** [s.split(sep)] for a one-character separator (the script splits on ['=']). *)
Fixpoint str_split (sep : ascii) (s : str) : list str :=
  match s with
  | [] => [[]]
  | c :: s' =>
      if Ascii.eqb c sep then [] :: str_split sep s'
      else match str_split sep s' with
           | [] => [[c]]
           | piece :: pieces => (c :: piece) :: pieces
           end
  end.

Definition mem (chars : str) (c : ascii) : bool := existsb (Ascii.eqb c) chars.

Definition str_lstrip (chars s : str) : str := drop_while (mem chars) s.
Definition str_rstrip (chars s : str) : str := rev (drop_while (mem chars) (rev s)).

(** [s.strip(chars)] *)
Definition str_strip (chars s : str) : str := str_rstrip chars (str_lstrip chars s).

(** [s.rfind(c)]: the highest index of [c] in [s], or [-1]. *)
Fixpoint rfind_from (c : ascii) (s : str) (i : Z) (found : Z) : Z :=
  match s with
  | [] => found
  | a :: s' => rfind_from c s' (i + 1) (if Ascii.eqb a c then i else found)
  end.

Definition str_rfind (s : str) (c : ascii) : Z := rfind_from c s 0 (-1).

(** ** [pathlib]: suffix and stem of a final path component
    (CPython 3.8 to 3.12, [PurePath.suffix] and [PurePath.stem]) *)

Definition PurePath_suffix (name : str) : str :=
  let i := str_rfind name "."%char in
  if ((0 <? i) && (i <? Z.of_nat (length name) - 1))%Z
  then skipn (Z.to_nat i) name
  else [].

Definition PurePath_stem (name : str) : str :=
  let i := str_rfind name "."%char in
  if ((0 <? i) && (i <? Z.of_nat (length name) - 1))%Z
  then firstn (Z.to_nat i) name
  else name.

(** ** Exceptions and results *)

Inductive exn : Type :=
| IndexError
| OSError (errno : nat)
| SystemExit (code : Z).

Inductive result (A : Type) : Type :=
| Ok (a : A)
| Raise (e : exn).
Arguments Ok {A} a.
Arguments Raise {A} e.

(** ** Dictionaries

    A [dict] keeps its keys in insertion order; assigning to a key that is
    present keeps the key's place. *)
Definition dict : Type := list (str * str).

Fixpoint dict_set (k v : str) (d : dict) : dict :=
  match d with
  | [] => [(k, v)]
  | (k', v') :: d' =>
      if str_eqb k k' then (k', v) :: d'
      else (k', v') :: dict_set k v d'
  end.

(** ** [collections.Counter] *)

Fixpoint counter_incr (e : str) (c : list (str * nat)) : list (str * nat) :=
  match c with
  | [] => [(e, 1)]
  | (k, n) :: c' =>
      if str_eqb e k then (k, S n) :: c'
      else (k, n) :: counter_incr e c'
  end.

Definition Counter (elems : list str) : list (str * nat) :=
  fold_left (fun c e => counter_incr e c) elems [].

(** [counter.most_common(1)]: [heapq.nlargest(1, items, key=count)], which
    is [max] over the items in dict order; [max] keeps the first of several
    greatest items. *)
Definition most_common_1 (c : list (str * nat)) : list (str * nat) :=
  match c with
  | [] => []
  | x :: rest =>
      [fold_left (fun best y => if snd best <? snd y then y else best) rest x]
  end.

(** ** What the script asks of Python and of the operating system *)

(** [argparse.Namespace] of the parser built in [get_config]. *)
Record Namespace : Type :=
  { ns_path : option str; ns_replace : option (list str) }.

Class Platform : Type :=
  { (** [str.casefold] *)
    casefold : str -> str;
    (** [repr] of a [str], for [{each!r}] *)
    repr : str -> str;
    (** [pathlib.Path]: construction, [/], [str()], and the final
        component ([.name]) of [Path(s)] *)
    Path : Type;
    Path_of : str -> Path;
    joinpath : Path -> str -> Path;
    Path_str : Path -> str;
    Path_name : str -> str;
    (** the process's environment: file system, working directory, output *)
    World : Type;
    print : str -> World -> World;
    os_getcwd : World -> str;
    os_listdir : Path -> World -> result (list str);
    (** [Path.exists()] answers, or raises the [OSError] of [stat] that it
        does not take for an absent path (a name too long, a directory
        that may not be searched) *)
    Path_exists : Path -> World -> result bool;
    Path_is_file : Path -> World -> bool;
    Path_absolute : Path -> World -> Path;
    Path_rename : Path -> Path -> World -> World * option exn;
    (** [parser.parse_args(args)] for the parser of [get_config]: it may
        print and terminate the process by itself *)
    parse_args : list str -> World -> World * result Namespace }.

(** What is assumed of [str.casefold]: folding never empties a string. *)
Class PlatformLaws (P : Platform) : Prop :=
  casefold_nil : forall s : str, casefold s = [] <-> s = [].

(** ** Effects: a state and exception monad over the [World] *)

Section Program.
Context {P : Platform}.

Definition M (A : Type) : Type := World -> World * result A.

Definition ret {A} (a : A) : M A := fun w => (w, Ok a).

Definition raise {A} (e : exn) : M A := fun w => (w, Raise e).

Definition bind {A B} (c : M A) (k : A -> M B) : M B :=
  fun w =>
    match c w with
    | (w', Ok a) => k a w'
    | (w', Raise e) => (w', Raise e)
    end.

Definition lift {A} (r : result A) : M A := fun w => (w, r).

Definition query {A} (q : World -> A) : M A := fun w => (w, Ok (q w)).

(** A question to the world that may raise instead of answering. *)
Definition attempt {A} (q : World -> result A) : M A := fun w => (w, q w).

Definition do_print (msg : str) : M unit := fun w => (print msg w, Ok tt).

Definition sys_exit {A} (code : Z) : M A := raise (SystemExit code).

Definition do_rename (src dst : Path) : M unit :=
  fun w =>
    match Path_rename src dst w with
    | (w', None) => (w', Ok tt)
    | (w', Some e) => (w', Raise e)
    end.

End Program.

Notation "x <- c1 ;; c2" := (bind c1 (fun x => c2))
  (at level 61, c1 at next level, right associativity).
Notation "' pat <- c1 ;; c2" :=
  (bind c1 (fun x => match x with pat => c2 end))
  (at level 61, pat pattern, c1 at next level, right associativity).
Notation "c1 ;; c2" := (bind c1 (fun _ => c2))
  (at level 61, right associativity).

(** ** The script's objects *)

Section Script.
Context {P : Platform}.

(** [class Config(NamedTuple)] *)
Record Config : Type := { cwd : Path; replace : dict }.

(** [class File].  [name] and [ext] are cached properties computed from
    [filename], which nothing assigns after [__init__]: the cached value is
    always the value computed here. *)
Record File : Type :=
  { path : Path;
    filename : str;
    old_filename : str;
    new_filename : str }.

Definition File_init (path : Path) (filename : str) : File :=
  {| path := path;
     filename := filename;
     old_filename := filename;
     new_filename := filename |}.

Definition File_name (self : File) : str :=
  PurePath_stem (Path_name (filename self)).

Definition File_ext (self : File) : str :=
  let suffix := PurePath_suffix (Path_name (filename self)) in
  if startswith (lit ".") suffix then skipn 1 suffix else suffix.

Definition looks_like_target (self : File) (majority : str) : bool :=
  let case_folded := casefold (File_ext self) in
  forallb (fun b : bool => b)
    [truthy case_folded; str_eqb case_folded (casefold majority)].

Definition get_new_filename (self : File) (padding : Z) (replace : dict) : str :=
  let new_filename := add_padding (old_filename self) padding in
  fold_left
    (fun new_filename '(source, target) => str_replace new_filename source target)
    replace new_filename.

Definition set_new_filename (self : File) (n : str) : File :=
  {| path := path self;
     filename := filename self;
     old_filename := old_filename self;
     new_filename := n |}.

(** [rename_to_pattern] returns the flag together with the object as the
    call leaves it.  An exception of the rename ends the run: the object,
    whose [new_filename] is already assigned at that point, is not seen
    again. *)
Definition rename_to_pattern (self : File) (padding : Z) (replace : dict)
  : M (bool * File) :=
  let new_name := get_new_filename self padding replace in
  if negb (str_eqb new_name (old_filename self)) then
    let self := set_new_filename self new_name in
    do_rename (joinpath (path self) (old_filename self))
              (joinpath (path self) (new_filename self)) ;;
    ret (true, self)
  else ret (false, self).

(** [class Folder], with the two cells that [cached_property] fills on
    first access. *)
Record Folder : Type :=
  { Folder_path : Path;
    files : list File;
    majority_cell : option str;
    padding_cell : option Z }.

Definition Folder_init (path : Path) : Folder :=
  {| Folder_path := path; files := [];
     majority_cell := None; padding_cell := None |}.

Definition set_files (self : Folder) (fs : list File) : Folder :=
  {| Folder_path := Folder_path self; files := fs;
     majority_cell := majority_cell self; padding_cell := padding_cell self |}.

(** [parse_contents] replaces the list of files and leaves the two cells
    as they are. *)
Definition parse_contents (self : Folder) : M Folder :=
  listing <- (fun w => (w, os_listdir (Folder_path self) w)) ;;
  kept <- query (fun w =>
                   filter (fun filename =>
                             Path_is_file (joinpath (Folder_path self) filename) w)
                     listing) ;;
  ret (set_files self (map (File_init (Folder_path self)) kept)).

(** The body of the property [majority]. *)
Definition majority_body (self : Folder) : result str :=
  let extensions :=
    map (fun file => casefold (File_ext file))
      (filter (fun file => truthy (casefold (File_ext file))) (files self)) in
  let counter := Counter extensions in
  match most_common_1 counter with
  | [] => Raise IndexError
  | (e, _) :: _ => Ok e
  end.

(** Reading [folder.majority]: the value and the folder with its cell filled. *)
Definition Folder_majority (self : Folder) : result (str * Folder) :=
  match majority_cell self with
  | Some m => Ok (m, self)
  | None =>
      match majority_body self with
      | Ok m =>
          Ok (m, {| Folder_path := Folder_path self; files := files self;
                    majority_cell := Some m;
                    padding_cell := padding_cell self |})
      | Raise e => Raise e
      end
  end.

Definition padding_body (self : Folder) : Z :=
  let names := map File_name (files self) in
  calculate_padding names.

Definition Folder_padding (self : Folder) : Z * Folder :=
  match padding_cell self with
  | Some p => (p, self)
  | None =>
      let p := padding_body self in
      (p, {| Folder_path := Folder_path self; files := files self;
             majority_cell := majority_cell self;
             padding_cell := Some p |})
  end.

(** ** Configuration *)

Definition quote1 : str := lit "'".
Definition quote2 : str := ["034"%char].

Definition replace_error (each : str) : str :=
  lit "Replace argument expects values like: --replace source=target, but got "
  ++ repr each.

(** The loop over [args.replace]. *)
Fixpoint get_config_replace (values : list str) (replace : dict) : M dict :=
  match values with
  | [] => ret replace
  | each :: rest =>
      let parts := str_split "="%char each in
      if negb (length parts =? 2) then
        do_print (replace_error each) ;; sys_exit 1
      else
        let key := nth 0 parts [] in
        let value := nth 1 parts [] in
        let key := str_strip quote2 (str_strip quote1 key) in
        let value := str_strip quote2 (str_strip quote1 value) in
        get_config_replace rest (dict_set key value replace)
  end.

Definition get_config (args : list str) : M Config :=
  args <- parse_args args ;;
  path <- match ns_path args with
          | Some p => ret (Path_of p)
          | None => c <- query os_getcwd ;; ret (Path_of c)
          end ;;
  found <- attempt (Path_exists path) ;;
  if negb found then
    a <- query (Path_absolute path) ;;
    do_print (lit "Directory does not exist: " ++ Path_str a) ;;
    sys_exit 1
  else
    replace <- match ns_replace args with
               | Some values => get_config_replace values []
               | None => ret []
               end ;;
    ret {| cwd := path; replace := replace |}.

Definition get_target_folder (path : Path) : M Folder :=
  let folder := Folder_init path in
  parse_contents folder.

(** ** The run loop *)

Definition renamed_message (file : File) : str :=
  ["009"%char] ++ lit "Renamed " ++ old_filename file
  ++ lit " to " ++ new_filename file.

Fixpoint list_set {A} (i : nat) (x : A) (l : list A) : list A :=
  match l, i with
  | [], _ => []
  | _ :: l', O => x :: l'
  | a :: l', S i' => a :: list_set i' x l'
  end.

(** One turn of [for file in target_folder], at index [i] of the list
    [target_folder.files].  The [File] objects live in that list, so the
    object a turn mutates is put back at its index. *)
Definition run_turn (config : Config) (callback : str -> M unit)
    (target_folder : Folder) (i : nat) : M Folder :=
  match nth_error (files target_folder) i with
  | None => ret target_folder
  | Some file =>
      '(majority, target_folder) <- lift (Folder_majority target_folder) ;;
      if looks_like_target file majority then
        let '(padding, target_folder) := Folder_padding target_folder in
        '(renamed, file) <- rename_to_pattern file padding (replace config) ;;
        let target_folder :=
          set_files target_folder (list_set i file (files target_folder)) in
        if renamed : bool then
          callback (renamed_message file) ;; ret target_folder
        else ret target_folder
      else ret target_folder
  end.

Fixpoint for_each {A S} (body : S -> A -> M S) (s : S) (l : list A) : M S :=
  match l with
  | [] => ret s
  | a :: l' => s' <- body s a ;; for_each body s' l'
  end.

(** [run] returns the folder as the loop leaves it. *)
Definition run (target_folder : Folder) (config : Config)
    (callback : str -> M unit) : M Folder :=
  for_each (run_turn config callback) target_folder
    (seq 0 (length (files target_folder))).

(** [str(n)] for an [int] and [repr(d)] for a [dict] of strings. *)
Definition str_of_int (n : Z) : str := lit (NilZero.string_of_int (Z.to_int n)).

Fixpoint join_with (sep : str) (l : list str) : str :=
  match l with
  | [] => []
  | [x] => x
  | x :: l' => x ++ sep ++ join_with sep l'
  end.

Definition repr_dict (d : dict) : str :=
  lit "{"
  ++ join_with (lit ", ")
       (map (fun '(k, v) => repr k ++ lit ": " ++ repr v) d)
  ++ lit "}".

(** [Folder.__repr__] *)
Definition Folder_repr (self : Folder) : str :=
  ["034"%char] ++ Path_str (Folder_path self) ++ ["034"%char].

(** [main], given [sys.argv]; [run] is called with the default callback. *)
Definition main (argv : list str) : M unit :=
  config <- get_config (tl argv) ;;
  target_folder <- get_target_folder (cwd config) ;;
  let '(padding, target_folder) := Folder_padding target_folder in
  let text := lit "Renaming files in " ++ Folder_repr target_folder
              ++ lit " to padding " ++ str_of_int padding in
  let text := match replace config with
              | [] => text
              | _ :: _ => text ++ lit ", using replace " ++ repr_dict (replace config)
              end in
  do_print text ;;
  run target_folder config do_print ;;
  ret tt.

End Script.

(** * The vocabulary of the properties *)

(** ** The first digit run *)

(** [name] is [prefix ++ body ++ suffix], where [prefix] holds no digit and
    [body] is a maximal, non-empty run of digits. *)
Definition first_digit_run (name prefix body suffix : str) : Prop :=
  name = prefix ++ body ++ suffix /\
  Forall (fun c => is_digit c = false) prefix /\
  body <> [] /\
  Forall (fun c => is_digit c = true) body /\
  (forall c rest, suffix = c :: rest -> is_digit c = false).

(** The same cut, computed: the longest digit-free prefix of a name, the
    digits that follow it, and the rest. *)
Definition leading (name : str) : str := take_while non_digit name.
Definition digits_of (name : str) : str :=
  take_while is_digit (drop_while non_digit name).
Definition trailing (name : str) : str :=
  drop_while is_digit (drop_while non_digit name).

Definition run_length (name : str) : nat := length (digits_of name).

(** ** Literal substitution *)

(** [Substituted old new s r]: [r] is [s] with every occurrence of the
    non-empty [old] replaced by [new], the occurrences being taken from
    the left and never overlapping. *)
Inductive Substituted (old new : str) : str -> str -> Prop :=
| Subst_none s :
    (forall a b, s <> a ++ old ++ b) ->
    Substituted old new s s
| Subst_first a b r :
    (forall a' b', a ++ old ++ b = a' ++ old ++ b' -> length a <= length a') ->
    Substituted old new b r ->
    Substituted old new (a ++ old ++ b) (a ++ new ++ r).

(** ** Replace values *)

(** A [--replace] value is malformed when it does not hold exactly one ['=']. *)
Definition malformed (v : str) : Prop := count_occ ascii_dec v "="%char <> 1.

(** What the two [strip] calls of [get_config] do to a part. *)
Definition strip_quotes (part : str) : str :=
  str_strip quote2 (str_strip quote1 part).

(** Another reading of the quotes: one quote character at most taken from
    each end. *)
Definition strip_one_layer (part : str) : str :=
  let is_quote := mem (quote1 ++ quote2) in
  let tail := match part with
              | c :: r => if is_quote c then r else part
              | [] => []
              end in
  match rev tail with
  | c :: r => if is_quote c then rev r else tail
  | [] => []
  end.

(** ** Counters *)

Definition counter_get (e : str) (c : list (str * nat)) : nat :=
  match find (fun kv => str_eqb e (fst kv)) c with
  | Some kv => snd kv
  | None => 0
  end.

(** ** Dictionaries and replace values *)

(** [d.get(k)] *)
Definition dict_get (k : str) (d : dict) : option str :=
  option_map snd (find (fun kv => str_eqb k (fst kv)) d).

(** The key and value that [get_config] makes of a well-formed value. *)
Definition replace_pair (each : str) : str * str :=
  let parts := str_split "="%char each in
  (strip_quotes (nth 0 parts []), strip_quotes (nth 1 parts [])).


Section Vocabulary.
Context {P : Platform}.

(** ** Configuration *)

Definition resolved_path (ns : Namespace) (w : World) : Path :=
  Path_of (match ns_path ns with Some p => p | None => os_getcwd w end).


(** ** Files and folders *)

(** The specification's [currentName] is the attribute [new_filename]. *)
Definition current_name (self : File) : str := new_filename self.

(** The case-folded extensions of the files that have an extension, in
    scan order. *)
Definition folded_extensions (fs : list File) : list str :=
  map (fun file => casefold (File_ext file))
    (filter (fun file => truthy (File_ext file)) fs).

(** A folder between its scan and the run: every file still has its three
    names equal, and a cell that is filled holds the value computed from
    the files.  [get_target_folder] returns such a folder, and reading
    [padding], as [main] does, keeps it so. *)
Definition scanned (self : Folder) : Prop :=
  (forall m, majority_cell self = Some m -> majority_body self = Ok m) /\
  (forall p, padding_cell self = Some p -> p = padding_body self) /\
  Forall (fun file => old_filename file = filename file /\
                      new_filename file = filename file) (files self).

(** The files the specification has renamed: those with an extension that
    equals the majority up to case and with a new name that differs from
    the current one. *)
Definition eligible (majority : str) (padding : Z) (replace : dict)
    (file : File) : bool :=
  truthy (File_ext file)
  && str_eqb (casefold (File_ext file)) (casefold majority)
  && negb (str_eqb (get_new_filename file padding replace) (current_name file)).


(** What a computation leaves behind: the world and the exception, if any. *)
Definition effects {A} (x : World * result A) : World * option exn :=
  (fst x, match snd x with Ok _ => None | Raise e => Some e end).

(** Two states of one [File] object: [rename_to_pattern] assigns
    [new_filename] only. *)
Definition same_file (f g : File) : Prop :=
  path f = path g /\ filename f = filename g /\ old_filename f = old_filename g.

(** What holds of the folder before the turn at index [k] of a run that
    started from the folder [start], whose majority is [majority]. *)
Record turn_inv (start : Folder) (majority : str) (k : nat) (self : Folder)
  : Prop :=
  { inv_same : Forall2 same_file (files self) (files start);
    inv_rest : forall j, k <= j ->
                 nth_error (files self) j = nth_error (files start) j;
    inv_majority : majority_cell self = None \/
                   majority_cell self = Some majority;
    inv_padding : padding_cell self = None \/
                  padding_cell self = Some (padding_body start) }.

(** A file as a completed run leaves it: a target file carries its
    computed name in [new_filename], any other file is as it was. *)
Definition renamed_file (majority : str) (padding : Z) (replace : dict)
    (file : File) : File :=
  if looks_like_target file majority
  then set_new_filename file (get_new_filename file padding replace)
  else file.



(** ** The run, file by file *)

(** The files [run] handles: those with an extension that equals the
    majority up to case and whose computed name differs from the name they
    were scanned under, [old_filename]. *)
Definition targeted (majority : str) (padding : Z) (replace : dict)
    (file : File) : bool :=
  truthy (File_ext file)
  && str_eqb (casefold (File_ext file)) (casefold majority)
  && negb (str_eqb (get_new_filename file padding replace) (old_filename file)).

(** What is done to the world for a list of such files, in order: the file
    system is asked to move the scanned name to the computed one and, when
    it did, one line is reported.  The first refusal, of the file system or
    of the report, ends it. *)
Fixpoint renames_and_reports (callback : str -> M unit) (padding : Z)
    (replace : dict) (todo : list File) (w : World) : World * option exn :=
  match todo with
  | [] => (w, None)
  | file :: todo =>
      let new_name := get_new_filename file padding replace in
      match Path_rename (joinpath (path file) (old_filename file))
                        (joinpath (path file) new_name) w with
      | (w1, Some e) => (w1, Some e)
      | (w1, None) =>
          match callback (["009"%char] ++ lit "Renamed " ++ old_filename file
                          ++ lit " to " ++ new_name) w1 with
          | (w2, Raise e) => (w2, Some e)
          | (w2, Ok _) => renames_and_reports callback padding replace todo w2
          end
      end
  end.

(** What holds of the folder before the turn at index [k] of a run that
    started from any folder [start], where the properties read [majority]
    and [padding]: a cell is as it was at the start or holds that value. *)
Record run_inv (start : Folder) (majority : str) (padding : Z) (k : nat)
    (self : Folder) : Prop :=
  { rinv_same : Forall2 same_file (files self) (files start);
    rinv_rest : forall j, k <= j ->
                  nth_error (files self) j = nth_error (files start) j;
    rinv_majority : majority_cell self = majority_cell start \/
                    majority_cell self = Some majority;
    rinv_padding : padding_cell self = padding_cell start \/
                   padding_cell self = Some padding }.


End Vocabulary.

(** * A concrete platform, for running the script on examples

    One flat POSIX-like file system: a world is the list of the paths that
    exist (each marked as a regular file or not), the working directory
    and the lines printed so far. *)

Module Demo.

Record world : Type :=
  { entries : list (str * bool); wd : str; printed : list str }.

Definition lower (c : ascii) : ascii :=
  let n := nat_of_ascii c in
  if (65 <=? n) && (n <=? 90) then ascii_of_nat (n + 32) else c.

(** ASCII names only: [casefold] lowers the letters A to Z. *)
Definition ascii_casefold (s : str) : str := map lower s.

(** [repr] of a string without quotes or escapes. *)
Definition plain_repr (s : str) : str := quote1 ++ s ++ quote1.

Definition join (p name : str) : str := p ++ lit "/" ++ name.

(** The final component of a relative path. *)
Definition last_component (s : str) : str :=
  skipn (Z.to_nat (str_rfind s "/"%char + 1)) s.

Fixpoint strip_prefix (p s : str) : option str :=
  match p, s with
  | [], _ => Some s
  | _ :: _, [] => None
  | a :: p', b :: s' => if Ascii.eqb a b then strip_prefix p' s' else None
  end.

Definition listdir (p : str) (w : world) : result (list str) :=
  Ok (flat_map
        (fun e => match strip_prefix (join p []) (fst e) with
                  | Some name => if mem name "/"%char then [] else [name]
                  | None => []
                  end)
        (entries w)).

Definition lookup (p : str) (w : world) : option bool :=
  option_map snd (find (fun e => str_eqb (fst e) p) (entries w)).

Definition ENOENT : nat := 2.
Definition ENAMETOOLONG : nat := 36.

(** [stat(2)] refuses a path of 4096 characters or more, or with a
    component of more than 255. *)
Definition too_long (p : str) : bool :=
  (4096 <=? length p)
  || existsb (fun component => 255 <? length component) (str_split "/"%char p).

Definition exists_ (p : str) (w : world) : result bool :=
  if too_long p then Raise (OSError ENAMETOOLONG)
  else Ok (match lookup p w with Some _ => true | None => false end).

(** [rename(2)]: the source must exist; an existing destination is replaced. *)
Definition rename (src dst : str) (w : world) : world * option exn :=
  match lookup src w with
  | None => (w, Some (OSError ENOENT))
  | Some kind =>
      ({| entries :=
            map (fun e => if str_eqb (fst e) src then (dst, kind) else e)
              (filter (fun e => str_eqb (fst e) src || negb (str_eqb (fst e) dst))
                 (entries w));
          wd := wd w; printed := printed w |}, None)
  end.

Definition emit (msg : str) (w : world) : world :=
  {| entries := entries w; wd := wd w; printed := printed w ++ [msg] |}.

(** [argparse] on the command lines of section 6: [-h] and [--help] print
    the help and leave with status 0; [--path VALUE] and [--replace VALUE]
    take the next token when it does not start with a dash; a flag without
    its value is a usage error (status 2) at once, any other token is one
    at the end.  Usage errors go to the standard error stream, which the
    world does not record; the help text is abridged to its usage line. *)
Fixpoint parse_loop (args : list str) (ns : Namespace) (extras : bool)
  : result Namespace :=
  match args with
  | [] => if extras then Raise (SystemExit 2) else Ok ns
  | a :: rest =>
      if str_eqb a (lit "-h") || str_eqb a (lit "--help") then
        Raise (SystemExit 0)
      else if str_eqb a (lit "--path") || str_eqb a (lit "--replace") then
        match rest with
        | v :: rest' =>
            if startswith (lit "-") v then Raise (SystemExit 2)
            else if str_eqb a (lit "--path") then
              parse_loop rest'
                {| ns_path := Some v; ns_replace := ns_replace ns |} extras
            else
              parse_loop rest'
                {| ns_path := ns_path ns;
                   ns_replace :=
                     Some (match ns_replace ns with
                           | Some l => l ++ [v]
                           | None => [v]
                           end) |} extras
        | [] => Raise (SystemExit 2)
        end
      else parse_loop rest ns true
  end.

Definition help_text : str :=
  lit "usage: numerator [-h] [--path PATH] [--replace REPLACE]".

Definition parse (args : list str) (w : world) : world * result Namespace :=
  match parse_loop args {| ns_path := None; ns_replace := None |} false with
  | Ok ns => (w, Ok ns)
  | Raise (SystemExit 0) => (emit help_text w, Raise (SystemExit 0))
  | Raise e => (w, Raise e)
  end.

#[export] Instance platform : Platform :=
  {| casefold := ascii_casefold;
     repr := plain_repr;
     Path := str;
     Path_of := fun s => s;
     joinpath := join;
     Path_str := fun p => p;
     Path_name := last_component;
     World := world;
     print := emit;
     os_getcwd := wd;
     os_listdir := listdir;
     Path_exists := exists_;
     Path_is_file := fun p w => match lookup p w with Some k => k | None => false end;
     Path_absolute := fun p _ => p;
     Path_rename := rename;
     parse_args := parse |}.

(** The directory of the end-to-end scenario. *)
Definition photos : world :=
  {| entries := [ (lit "/photos", false);
                  (lit "/photos/1.jpg", true);
                  (lit "/photos/2.jpg", true);
                  (lit "/photos/10.jpg", true);
                  (lit "/photos/readme.txt", true) ];
     wd := lit "/photos";
     printed := [] |}.

End Demo.

Definition photo (name : string) : @File Demo.platform :=
  File_init (P := Demo.platform) (lit "/photos") (lit name).

Definition scan_of (names : list string) : @Folder Demo.platform :=
  set_files (Folder_init (P := Demo.platform) (lit "/photos")) (map photo names).

Definition photos_folder : @Folder Demo.platform :=
  scan_of ["1.jpg"; "2.jpg"; "10.jpg"; "readme.txt"]%string.

Definition no_replace : @Config Demo.platform :=
  @Build_Config Demo.platform (lit "/photos") [].

(** The directory and the folder object as a run over [photos_folder]
    leaves them: two files moved, two lines printed, the computed names in
    [new_filename] and both cells filled. *)
Definition renamed_photos : Demo.world :=
  {| Demo.entries := [ (lit "/photos", false);
                       (lit "/photos/01.jpg", true);
                       (lit "/photos/02.jpg", true);
                       (lit "/photos/10.jpg", true);
                       (lit "/photos/readme.txt", true) ];
     Demo.wd := lit "/photos";
     Demo.printed := [ ["009"%char] ++ lit "Renamed 1.jpg to 01.jpg";
                       ["009"%char] ++ lit "Renamed 2.jpg to 02.jpg" ] |}.

Definition renamed_folder : @Folder Demo.platform :=
  @Build_Folder Demo.platform (lit "/photos")
    [ set_new_filename (photo "1.jpg") (lit "01.jpg");
      set_new_filename (photo "2.jpg") (lit "02.jpg");
      photo "10.jpg";
      photo "readme.txt" ]
    (Some (lit "jpg")) (Some 2%Z).

(** The same directory once somebody has put a new [1.jpg] into it. *)
Definition refilled_photos : Demo.world :=
  {| Demo.entries := Demo.entries renamed_photos ++ [(lit "/photos/1.jpg", true)];
     Demo.wd := lit "/photos";
     Demo.printed := [] |}.

(** * Properties *)

(** ** Lists: [take_while] and [drop_while] *)

Section Spans.
Context {A : Type} (p : A -> bool).

Lemma take_drop_while (l : list A) : take_while p l ++ drop_while p l = l.
Proof.
  induction l as [|a l IH]; simpl; [reflexivity|].
  destruct (p a); simpl; [now rewrite IH | reflexivity].
Qed.

Lemma take_while_all (l : list A) : Forall (fun a => p a = true) (take_while p l).
Proof.
  induction l as [|a l IH]; simpl; [constructor|].
  destruct (p a) eqn:E; constructor; assumption.
Qed.

Lemma drop_while_head (l : list A) a r : drop_while p l = a :: r -> p a = false.
Proof.
  induction l as [|b l IH]; simpl; [discriminate|].
  destruct (p b) eqn:E; [exact IH|].
  intros H; injection H as -> _; exact E.
Qed.

Lemma firstn_take_while (l : list A) :
  firstn (length (take_while p l)) l = take_while p l.
Proof.
  induction l as [|a l IH]; simpl; [reflexivity|].
  destruct (p a); simpl; [now rewrite IH | reflexivity].
Qed.

Lemma skipn_take_while (l : list A) :
  skipn (length (take_while p l)) l = drop_while p l.
Proof.
  induction l as [|a l IH]; simpl; [reflexivity|].
  destruct (p a); simpl; [exact IH | reflexivity].
Qed.

(** A run that is followed by nothing, or by an element outside [p], is
    the whole of what [take_while] takes. *)
Lemma take_while_app (l1 l2 : list A) :
  Forall (fun a => p a = true) l1 ->
  (forall a r, l2 = a :: r -> p a = false) ->
  take_while p (l1 ++ l2) = l1 /\ drop_while p (l1 ++ l2) = l2.
Proof.
  intros H1 H2; induction H1 as [|a l1 Ha _ IH]; simpl.
  - destruct l2 as [|b r]; simpl; [split; reflexivity|].
    rewrite (H2 b r eq_refl); split; reflexivity.
  - rewrite Ha; destruct IH as [-> ->]; split; reflexivity.
Qed.

Lemma take_while_nil_skipn (l : list A) j :
  Forall (fun a => p a = false) l -> take_while p (skipn j l) = [].
Proof.
  intros H; revert j; induction H as [|a l Ha _ IH]; intros [|j]; simpl;
    try reflexivity; [now rewrite Ha | apply IH].
Qed.

End Spans.

(** ** The matcher *)

Lemma backtrack_first {A} least (k : nat -> option A) j r :
  least <= j -> k j = Some r -> backtrack least k j = Some r.
Proof.
  intros Hle Hk; destruct j; simpl.
  - destruct least; [now rewrite Hk | lia].
  - destruct (least <=? S j) eqn:E; [now rewrite Hk|].
    apply Nat.leb_gt in E; lia.
Qed.

Lemma backtrack_none {A} least (k : nat -> option A) j :
  (forall i, i <= j -> least <= i -> k i = None) -> backtrack least k j = None.
Proof.
  induction j as [|j IH]; intros H; simpl.
  - destruct (least <=? 0) eqn:E; [|reflexivity].
    apply Nat.leb_le in E; now rewrite H.
  - destruct (least <=? S j) eqn:E.
    + apply Nat.leb_le in E; rewrite H by lia.
      apply IH; intros i Hi; apply H; lia.
    + apply IH; intros i Hi; apply H; lia.
Qed.

Lemma re_match_cons it rest (s : str) pos :
  re_match (it :: rest) s pos =
    backtrack (at_least it)
      (fun j => option_map (cons (pos, pos + j))
                  (re_match rest (skipn j s) (pos + j)))
      (length (take_while (cls it) s)).
Proof. reflexivity. Qed.

Lemma re_match_last_star c (x : str) pos :
  re_match [star c] x pos = Some [(pos, pos + length (take_while c x))].
Proof.
  simpl; apply backtrack_first; [lia | reflexivity].
Qed.

Lemma non_digit_false c : non_digit c = false <-> is_digit c = true.
Proof. unfold non_digit; destruct (is_digit c); simpl; split; congruence. Qed.

Lemma non_digit_true c : non_digit c = true <-> is_digit c = false.
Proof. unfold non_digit; destruct (is_digit c); simpl; split; congruence. Qed.

Lemma leading_digits_trailing name :
  leading name ++ digits_of name ++ trailing name = name.
Proof.
  unfold leading, digits_of, trailing.
  now rewrite (take_drop_while is_digit), (take_drop_while non_digit).
Qed.

Lemma digits_of_nil name :
  digits_of name = [] -> Forall (fun c => is_digit c = false) name.
Proof.
  unfold digits_of; intros H.
  assert (Hd : drop_while non_digit name = []).
  { destruct (drop_while non_digit name) as [|a r] eqn:E; [reflexivity|].
    apply drop_while_head in E; apply non_digit_false in E.
    simpl in H; rewrite E in H; discriminate. }
  rewrite <- (take_drop_while non_digit name), Hd, app_nil_r.
  eapply Forall_impl; [|apply take_while_all].
  intros a; apply non_digit_true.
Qed.

Lemma DIGITS_match_some name :
  digits_of name <> [] ->
  DIGITS_match name =
    Some {| start1 := length (leading name);
            end1 := length (leading name) + length (digits_of name);
            groups := [digits_of name] |}.
Proof.
  intros Hne; unfold DIGITS_match.
  assert (E : re_match DIGITS name 0 =
              Some [ (0, length (leading name));
                     (length (leading name),
                      length (leading name) + length (digits_of name));
                     (length (leading name) + length (digits_of name),
                      length (leading name) + length (digits_of name)
                      + length (take_while dot
                                  (skipn (length (digits_of name))
                                     (drop_while non_digit name)))) ]).
  { unfold DIGITS; rewrite re_match_cons.
    apply backtrack_first; [simpl; lia|].
    rewrite re_match_cons; cbn [cls star plus at_least].
    rewrite skipn_take_while; fold (digits_of name) (leading name).
    erewrite backtrack_first; [reflexivity | |].
    - destruct (digits_of name); [congruence | simpl; lia].
    - rewrite re_match_last_star; reflexivity. }
  rewrite E; f_equal; f_equal.
  replace (length (leading name) + length (digits_of name) - length (leading name))
    with (length (digits_of name)) by lia.
  unfold leading; rewrite skipn_take_while.
  unfold digits_of; now rewrite firstn_take_while.
Qed.

Lemma DIGITS_match_none name : digits_of name = [] -> DIGITS_match name = None.
Proof.
  intros Hnil; unfold DIGITS_match.
  assert (E : re_match DIGITS name 0 = None); [|now rewrite E].
  unfold DIGITS; rewrite re_match_cons.
  apply backtrack_none; intros i _ _.
  rewrite re_match_cons; cbn [cls star plus at_least].
  rewrite backtrack_none; [reflexivity|].
  intros j Hj Hj1.
  rewrite take_while_nil_skipn in Hj by now apply digits_of_nil.
  simpl in Hj; lia.
Qed.

Lemma str_mul_zero n : str_mul (lit "0") n = repeat "0"%char (Z.to_nat n).
Proof.
  unfold str_mul; induction (Z.to_nat n) as [|k IH]; simpl;
    [reflexivity | f_equal; exact IH].
Qed.

Lemma add_padding_eq name padding :
  add_padding name padding =
    if truthy (digits_of name) then
      leading name
      ++ repeat "0"%char (Z.to_nat (padding - Z.of_nat (length (digits_of name))))
      ++ digits_of name ++ trailing name
    else name.
Proof.
  unfold add_padding; destruct (digits_of name) as [|d ds] eqn:E.
  - now rewrite DIGITS_match_none.
  - rewrite DIGITS_match_some by (rewrite E; discriminate).
    rewrite E; cbn [start1 end1 groups nth truthy].
    f_equal; [apply firstn_take_while|]; f_equal.
    + apply str_mul_zero.
    + f_equal; rewrite <- E.
      rewrite Nat.add_comm, <- skipn_skipn; unfold leading;
        rewrite skipn_take_while.
      unfold digits_of, trailing; now rewrite skipn_take_while.
Qed.

(** ** The first digit run *)

(** The class of [DIGITS] is the ASCII digits ['0'] to ['9']. *)
Lemma is_digit_ascii c :
  is_digit c = true <-> 48 <= nat_of_ascii c <= 57.
Proof.
  assert (E : is_digit c = (48 <=? nat_of_ascii c) && (nat_of_ascii c <=? 57)).
  { destruct c as [[] [] [] [] [] [] [] []]; vm_compute; reflexivity. }
  rewrite E, andb_true_iff, !Nat.leb_le; reflexivity.
Qed.

(** A name has one first digit run at most, and it is the one the scan
    [leading], [digits_of], [trailing] finds. *)
Lemma first_digit_run_scan name prefix body suffix :
  first_digit_run name prefix body suffix ->
  prefix = leading name /\ body = digits_of name /\ suffix = trailing name.
Proof.
  intros (-> & Hp & Hne & Hb & Hs).
  assert (Hp' : Forall (fun c => non_digit c = true) prefix).
  { eapply Forall_impl; [|exact Hp]. intros a; apply non_digit_true. }
  assert (Hhead : forall a r, body ++ suffix = a :: r -> non_digit a = false).
  { intros a r E; apply non_digit_false.
    destruct body as [|b body]; [congruence|].
    injection E as <- _; now inversion Hb. }
  destruct (take_while_app non_digit prefix (body ++ suffix) Hp' Hhead) as [E1 E2].
  destruct (take_while_app is_digit body suffix Hb Hs) as [E3 E4].
  unfold leading, digits_of, trailing; rewrite E1, E2, E3, E4; auto.
Qed.

Lemma scan_first_digit_run name :
  digits_of name <> [] ->
  first_digit_run name (leading name) (digits_of name) (trailing name).
Proof.
  intros Hne; repeat split.
  - symmetry; apply leading_digits_trailing.
  - eapply Forall_impl; [|apply (take_while_all non_digit)].
    intros a; apply non_digit_true.
  - exact Hne.
  - apply take_while_all.
  - intros c rest; apply drop_while_head.
Qed.

Lemma digits_of_some name :
  Exists (fun c => is_digit c = true) name -> digits_of name <> [].
Proof.
  intros Hex Hnil; apply digits_of_nil in Hnil.
  apply Exists_exists in Hex as (c & Hin & Hc).
  rewrite Forall_forall in Hnil; specialize (Hnil c Hin); congruence.
Qed.

Lemma to_nat_max0 z : Z.to_nat (Z.max z 0) = Z.to_nat z.
Proof. lia. Qed.

(** C1.  [add_padding] returns a name without digits as it is; otherwise,
    with the name cut as [prefix ++ body ++ suffix] around its first
    maximal run of ASCII digits, it returns the prefix, then
    [max (targetWidth - length body) 0] zeros, then the body and the suffix.
    It never shortens the run: a run of at least [targetWidth] digits
    leaves the name unchanged.  (Such a cut exists exactly when the name
    holds a digit, and holds for every integer width.) *)
Theorem add_padding_spec (name : str) (targetWidth : Z) :
  (Forall (fun c => is_digit c = false) name ->
   add_padding name targetWidth = name) /\
  (Exists (fun c => is_digit c = true) name ->
   exists prefix body suffix, first_digit_run name prefix body suffix) /\
  (forall prefix body suffix,
     first_digit_run name prefix body suffix ->
     add_padding name targetWidth =
       prefix
       ++ repeat "0"%char
            (Z.to_nat (Z.max (targetWidth - Z.of_nat (length body)) 0))
       ++ body ++ suffix
     /\ ((targetWidth <= Z.of_nat (length body))%Z ->
         add_padding name targetWidth = name)).
Proof.
  split; [|split].
  - intros Hall; rewrite add_padding_eq.
    destruct (digits_of name) as [|d ds] eqn:E; [reflexivity|].
    exfalso.
    assert (Hin : In d name).
    { rewrite <- (leading_digits_trailing name), E.
      apply in_or_app; right; left; reflexivity. }
    rewrite Forall_forall in Hall; specialize (Hall d Hin).
    pose proof (take_while_all is_digit (drop_while non_digit name)) as Hd.
    fold (digits_of name) in Hd; rewrite E in Hd; inversion Hd; congruence.
  - intros Hex; exists (leading name), (digits_of name), (trailing name).
    apply scan_first_digit_run, digits_of_some, Hex.
  - intros prefix body suffix Hrun.
    pose proof Hrun as (Hname & _ & Hne & _).
    destruct (first_digit_run_scan _ _ _ _ Hrun) as (-> & -> & ->).
    rewrite add_padding_eq.
    destruct (digits_of name) as [|d ds] eqn:E; [congruence|].
    cbn [truthy]; split.
    + now rewrite to_nat_max0.
    + intros Hle.
      replace (Z.to_nat (targetWidth - Z.of_nat (length (d :: ds)))) with 0%nat by lia.
      rewrite <- E; simpl; apply leading_digits_trailing.
Qed.

Lemma add_padding_spec_witness :
  add_padding (lit "10.jpg") 2 = lit "10.jpg" /\
  add_padding (lit "abc.jpg") 3 = lit "abc.jpg".
Proof.
  split.
  - apply (proj2 (proj2 (add_padding_spec (lit "10.jpg") 2))
             [] (lit "10") (lit ".jpg")).
    + repeat split; try (repeat constructor); try discriminate.
      intros c rest E; injection E as <- _; reflexivity.
    + simpl; lia.
  - apply (proj1 (add_padding_spec (lit "abc.jpg") 3)).
    repeat constructor.
Defined.

(** ** The padding width *)

Lemma calculate_padding_fold names (acc : Z) :
  (0 <= acc)%Z ->
  fold_left
    (fun padding name =>
       match DIGITS_match name with
       | Some m => Z.max padding (Z.of_nat (length (nth 0 (groups m) [])))
       | None => padding
       end) names acc
  = Z.max acc (Z.of_nat (list_max (map run_length names))).
Proof.
  revert acc; induction names as [|name names IH]; intros acc Hacc; simpl.
  - lia.
  - assert (E : match DIGITS_match name with
                | Some m => Z.max acc (Z.of_nat (length (nth 0 (groups m) [])))
                | None => acc
                end = Z.max acc (Z.of_nat (run_length name))).
    { unfold run_length; destruct (digits_of name) as [|d ds] eqn:Ed.
      - rewrite DIGITS_match_none by assumption; simpl; lia.
      - rewrite DIGITS_match_some by (rewrite Ed; discriminate).
        rewrite Ed; reflexivity. }
    rewrite E, IH by lia. lia.
Qed.

Lemma calculate_padding_max names :
  calculate_padding names = Z.of_nat (list_max (map run_length names)).
Proof.
  unfold calculate_padding; rewrite calculate_padding_fold by lia; lia.
Qed.

Lemma list_max_attained (l : list nat) :
  l <> [] -> In (list_max l) l.
Proof.
  induction l as [|a l IH]; [congruence|intros _].
  destruct l as [|b l]; [simpl; left; lia|].
  change (list_max (a :: b :: l)) with (Nat.max a (list_max (b :: l))).
  destruct (Nat.max_spec a (list_max (b :: l))) as [[_ ->]|[_ ->]].
  - right; apply IH; discriminate.
  - left; reflexivity.
Qed.

(** C2.  [calculate_padding] is the greatest length of a first digit run
    among the names: it bounds every such run, it is the length of one of
    them as soon as a name holds a digit, and it is 0 for an empty list or
    for names without digits. *)
Theorem calculate_padding_spec (names : list str) :
  (forall name prefix body suffix,
     In name names -> first_digit_run name prefix body suffix ->
     (Z.of_nat (length body) <= calculate_padding names)%Z) /\
  ((exists name, In name names /\ Exists (fun c => is_digit c = true) name) ->
   exists name prefix body suffix,
     In name names /\ first_digit_run name prefix body suffix /\
     calculate_padding names = Z.of_nat (length body)) /\
  ((forall name, In name names -> Forall (fun c => is_digit c = false) name) ->
   calculate_padding names = 0%Z) /\
  calculate_padding [] = 0%Z /\
  calculate_padding [lit "1"; lit "23"; lit "456"] = 3%Z /\
  calculate_padding [lit "a"; lit "b"] = 0%Z.
Proof.
  rewrite calculate_padding_max.
  split; [|split; [|split; [|repeat split]]].
  - intros name prefix body suffix Hin Hrun.
    destruct (first_digit_run_scan _ _ _ _ Hrun) as (_ & -> & _).
    apply inj_le.
    pose proof (list_max_le (map run_length names) (list_max (map run_length names))) as [H _].
    specialize (H (Nat.le_refl _)); rewrite Forall_forall in H.
    apply H, in_map_iff; exists name; split; [reflexivity | assumption].
  - intros (name0 & Hin0 & Hex0).
    assert (Hne : map run_length names <> []).
    { destruct names; [contradiction | discriminate]. }
    apply list_max_attained, in_map_iff in Hne as (name & Hlen & Hin).
    assert (Hpos : 1 <= run_length name).
    { rewrite Hlen.
      pose proof (list_max_le (map run_length names) (list_max (map run_length names))) as [H _].
      specialize (H (Nat.le_refl _)); rewrite Forall_forall in H.
      apply Nat.le_trans with (run_length name0).
      - apply digits_of_some in Hex0; unfold run_length.
        destruct (digits_of name0); [congruence | simpl; lia].
      - apply H, in_map_iff; exists name0; split; [reflexivity | assumption]. }
    exists name, (leading name), (digits_of name), (trailing name).
    split; [assumption|split].
    + apply scan_first_digit_run; unfold run_length in Hpos.
      destruct (digits_of name); [simpl in Hpos; lia | discriminate].
    + rewrite <- Hlen; reflexivity.
  - intros Hnone.
    assert (H0 : list_max (map run_length names) <= 0); [|lia].
    apply list_max_le, Forall_forall; intros n Hn.
    apply in_map_iff in Hn as (name & <- & Hin).
    unfold run_length; destruct (digits_of name) as [|d ds] eqn:E; [simpl; lia|].
    exfalso; specialize (Hnone name Hin); rewrite Forall_forall in Hnone.
    assert (Hd : is_digit d = true).
    { pose proof (take_while_all is_digit (drop_while non_digit name)) as Hd.
      fold (digits_of name) in Hd; rewrite E in Hd; now inversion Hd. }
    rewrite Hnone in Hd; [discriminate|].
    rewrite <- (leading_digits_trailing name), E.
    apply in_or_app; right; left; reflexivity.
Qed.

(** ** Literal substitution *)

Lemma startswith_app p (s : str) : startswith p (p ++ s) = true.
Proof.
  induction p as [|a p IH]; simpl; [reflexivity|].
  now rewrite Ascii.eqb_refl, IH.
Qed.

Lemma startswith_inv p (s : str) :
  startswith p s = true -> exists r, s = p ++ r.
Proof.
  revert s; induction p as [|a p IH]; intros s H; simpl in *.
  - now exists s.
  - destruct s as [|b s]; [discriminate|].
    apply andb_true_iff in H as [Hab Hps].
    apply Ascii.eqb_eq in Hab as ->.
    destruct (IH s Hps) as [r ->]; now exists r.
Qed.

Lemma replace_scan_skip old new (s : str) skip :
  replace_scan old new s skip = replace_scan old new (skipn skip s) 0.
Proof.
  revert skip; induction s as [|c s IH]; intros [|k]; try reflexivity.
  simpl; apply IH.
Qed.

Lemma replace_scan_hit old new (b : str) :
  old <> [] ->
  replace_scan old new (old ++ b) 0 = new ++ replace_scan old new b 0.
Proof.
  destruct old as [|o old]; [congruence|intros _].
  cbn [app replace_scan]; rewrite (startswith_app (o :: old) b : startswith (o :: old) (o :: old ++ b) = true).
  f_equal; rewrite replace_scan_skip; simpl.
  now rewrite Nat.sub_0_r, skipn_app, skipn_all, Nat.sub_diag.
Qed.

Lemma replace_scan_miss old new c (s : str) :
  startswith old (c :: s) = false ->
  replace_scan old new (c :: s) 0 = c :: replace_scan old new s 0.
Proof. intros H; cbn [replace_scan]; now rewrite H. Qed.

Lemma Substituted_cons old new c (s r : str) :
  startswith old (c :: s) = false ->
  Substituted old new s r -> Substituted old new (c :: s) (c :: r).
Proof.
  intros Hmiss H; destruct H as [s Hnone | a b r Hfirst Hrest].
  - apply Subst_none; intros [|c' a] b E; simpl in E.
    + rewrite E, startswith_app in Hmiss; discriminate.
    + injection E as _ E; exact (Hnone _ _ E).
  - change (Substituted old new ((c :: a) ++ old ++ b) ((c :: a) ++ new ++ r)).
    apply Subst_first; [|exact Hrest].
    intros [|c' a'] b' E; simpl in E.
    + exfalso; change (c :: a ++ old ++ b) with (c :: (a ++ old ++ b)) in Hmiss.
      rewrite E, startswith_app in Hmiss; discriminate.
    + injection E as _ E; simpl; apply le_n_S, (Hfirst _ _ E).
Qed.

Lemma replace_scan_substituted old new :
  old <> [] ->
  forall n (s : str), length s <= n ->
    Substituted old new s (replace_scan old new s 0).
Proof.
  intros Hold; induction n as [|n IH]; intros s Hlen.
  - destruct s; [|simpl in Hlen; lia].
    apply Subst_none; intros a b E.
    destruct a; [destruct old; [congruence | discriminate] | discriminate].
  - destruct s as [|c s].
    + apply Subst_none; intros a b E.
      destruct a; [destruct old; [congruence | discriminate] | discriminate].
    + destruct (startswith old (c :: s)) eqn:Hs.
      * apply startswith_inv in Hs as [b Hb]; rewrite Hb.
        rewrite replace_scan_hit by assumption.
        apply (Subst_first old new [] b); [intros; simpl; lia|].
        apply IH.
        assert (length (c :: s) = length old + length b)
          by (rewrite Hb; apply length_app).
        destruct old; [congruence | simpl in *; lia].
      * rewrite replace_scan_miss by assumption.
        apply Substituted_cons; [assumption|].
        apply IH; simpl in Hlen; lia.
Qed.

(** [str.replace] with a non-empty [old] is that substitution. *)
Lemma str_replace_substituted (s old new : str) :
  old <> [] -> Substituted old new s (str_replace s old new).
Proof.
  intros Hold; unfold str_replace.
  destruct old as [|o old]; [congruence|].
  now apply (replace_scan_substituted (o :: old) new Hold (length s)).
Qed.

Lemma app_eq_length {A} (a a' b b' : list A) :
  a ++ b = a' ++ b' -> length a = length a' -> a = a' /\ b = b'.
Proof.
  revert a'; induction a as [|x a IH]; intros [|x' a'] E L;
    simpl in *; try discriminate; [auto|].
  injection E as -> E; injection L as L.
  destruct (IH _ E L) as [-> ->]; auto.
Qed.

(** The substitution is a function of the string. *)
Lemma Substituted_unique old new (s r1 r2 : str) :
  Substituted old new s r1 -> Substituted old new s r2 -> r1 = r2.
Proof.
  intros H1; revert r2; induction H1 as [s Hnone | a b r Hfirst Hrest IH];
    intros r2 H2.
  - inversion H2 as [s' Hnone' | a' b' r' Hfirst' Hrest' E]; subst;
      [reflexivity | exfalso; eapply Hnone; reflexivity].
  - inversion H2 as [s' Hnone' | a' b' r' Hfirst' Hrest' E]; subst.
    + exfalso; eapply Hnone'; reflexivity.
    + assert (L : length a' = length a).
      { apply Nat.le_antisymm; [apply (Hfirst' _ _ E) | apply (Hfirst _ _ (eq_sym E))]. }
      destruct (app_eq_length _ _ _ _ E L) as [-> E'].
      apply app_inv_head in E' as ->.
      now rewrite (IH _ Hrest').
Qed.

Lemma str_eqb_eq (a b : str) : str_eqb a b = true <-> a = b.
Proof. unfold str_eqb; destruct (str_eq_dec a b); split; congruence. Qed.

Lemma str_eqb_neq (a b : str) : str_eqb a b = false <-> a <> b.
Proof. unfold str_eqb; destruct (str_eq_dec a b); split; congruence. Qed.

Lemma str_eqb_refl (a : str) : str_eqb a a = true.
Proof. now apply str_eqb_eq. Qed.

Lemma truthy_true (x : str) : truthy x = true <-> x <> [].
Proof. destruct x; simpl; split; congruence. Qed.

(** ** The new name of a file *)

Section NewName.
Context {P : Platform}.

Lemma get_new_filename_snoc (self : File) padding replace source target :
  get_new_filename self padding (replace ++ [(source, target)]) =
    str_replace (get_new_filename self padding replace) source target.
Proof. unfold get_new_filename; now rewrite fold_left_app. Qed.

(** C3.  [get_new_filename] pads the whole original file name and then
    applies the pairs of the mapping in its iteration order, each one as a
    literal substitution of every occurrence in the result of the step
    before; the result depends on the original name, the width and the
    mapping only.  With foo:baz then baz:qux, [foo_bar.jpg] becomes
    [qux_bar.jpg]. *)
Theorem get_new_filename_spec (self : File) (padding : Z) :
  get_new_filename self padding [] = add_padding (old_filename self) padding /\
  (forall replace source target,
     get_new_filename self padding (replace ++ [(source, target)]) =
       str_replace (get_new_filename self padding replace) source target) /\
  (forall s source target : str,
     source <> [] -> Substituted source target s (str_replace s source target)) /\
  (forall (other : File) replace,
     old_filename other = old_filename self ->
     get_new_filename other padding replace =
       get_new_filename self padding replace) /\
  (old_filename self = lit "foo_bar.jpg" ->
   get_new_filename self padding
     [(lit "foo", lit "baz"); (lit "baz", lit "qux")] = lit "qux_bar.jpg").
Proof.
  split; [reflexivity|].
  split; [intros; apply get_new_filename_snoc|].
  split; [intros; now apply str_replace_substituted|].
  split.
  - intros other replace E; unfold get_new_filename; now rewrite E.
  - intros E; unfold get_new_filename; rewrite E, add_padding_eq; reflexivity.
Qed.

(** ** Renaming one file *)

(** C8, as amended.  [rename_to_pattern] compares the computed name with
    the original name [old_filename], which it never updates.  When they
    are equal it touches nothing and returns false.  Otherwise it asks for
    the rename of the original name to the new one inside the owning
    directory and, when the file system accepts, returns true with the
    current name set to the new one; a refusal is raised to the caller.
    For a file whose current name is still its original name, that is a
    comparison with the current name. *)
Theorem rename_to_pattern_spec (self : File) (padding : Z) (replace : dict)
    (w : World) :
  let new_name := get_new_filename self padding replace in
  (new_name = old_filename self ->
   rename_to_pattern self padding replace w = (w, Ok (false, self))) /\
  (new_name <> old_filename self ->
   rename_to_pattern self padding replace w =
     match Path_rename (joinpath (path self) (old_filename self))
                       (joinpath (path self) new_name) w with
     | (w', None) => (w', Ok (true, set_new_filename self new_name))
     | (w', Some e) => (w', Raise e)
     end) /\
  (current_name self = old_filename self ->
   (new_name = current_name self <->
    rename_to_pattern self padding replace w = (w, Ok (false, self)))).
Proof.
  intros new_name.
  assert (Hsame : new_name = old_filename self ->
                  rename_to_pattern self padding replace w = (w, Ok (false, self))).
  { intros E; unfold rename_to_pattern; fold new_name.
    now rewrite E, str_eqb_refl. }
  assert (Hdiff : new_name <> old_filename self ->
     rename_to_pattern self padding replace w =
     match Path_rename (joinpath (path self) (old_filename self))
                       (joinpath (path self) new_name) w with
     | (w', None) => (w', Ok (true, set_new_filename self new_name))
     | (w', Some e) => (w', Raise e)
     end).
  { intros N; unfold rename_to_pattern; fold new_name.
    apply str_eqb_neq in N; rewrite N; cbn [negb].
    unfold bind, do_rename, ret; cbn [path old_filename new_filename set_new_filename].
    destruct (Path_rename _ _ w) as [w' [e|]]; reflexivity. }
  split; [exact Hsame|]; split; [exact Hdiff|].
  intros Hcur; rewrite Hcur; split; [exact Hsame|].
  intros Hres; destruct (str_eq_dec new_name (old_filename self)) as [E|N];
    [exact E|exfalso].
  rewrite (Hdiff N) in Hres.
  destruct (Path_rename _ _ w) as [w' [e|]]; discriminate.
Qed.

End NewName.

(** ** Splitting and stripping *)

Lemma str_split_length sep (s : str) :
  length (str_split sep s) = S (count_occ ascii_dec s sep).
Proof.
  induction s as [|c s IH]; simpl; [reflexivity|].
  destruct (Ascii.eqb c sep) eqn:E.
  - apply Ascii.eqb_eq in E as ->.
    destruct (ascii_dec sep sep); [simpl; now rewrite IH | congruence].
  - apply Ascii.eqb_neq in E.
    destruct (ascii_dec c sep); [congruence|].
    destruct (str_split sep s); simpl in *; [discriminate | exact IH].
Qed.

Lemma str_split_whole sep (s : str) : ~ In sep s -> str_split sep s = [s].
Proof.
  induction s as [|c s IH]; intros H; simpl; [reflexivity|].
  destruct (Ascii.eqb c sep) eqn:E.
  - apply Ascii.eqb_eq in E as ->; exfalso; apply H; left; reflexivity.
  - rewrite IH; [reflexivity | intros Hin; apply H; right; exact Hin].
Qed.

Lemma str_split_pair sep (a b : str) :
  ~ In sep a -> ~ In sep b -> str_split sep (a ++ sep :: b) = [a; b].
Proof.
  intros Ha Hb; induction a as [|c a IH]; simpl.
  - now rewrite Ascii.eqb_refl, str_split_whole.
  - destruct (Ascii.eqb c sep) eqn:E.
    + apply Ascii.eqb_eq in E as ->; exfalso; apply Ha; left; reflexivity.
    + rewrite IH; [reflexivity | intros Hin; apply Ha; right; exact Hin].
Qed.

Lemma mem_true chars c : mem chars c = true <-> In c chars.
Proof.
  unfold mem; rewrite existsb_exists; split.
  - intros (x & Hin & E); apply Ascii.eqb_eq in E as ->; exact Hin.
  - intros Hin; exists c; split; [exact Hin | apply Ascii.eqb_refl].
Qed.

(** [strip] removes every leading and every trailing character of [chars],
    however many there are, and nothing else. *)
Lemma str_strip_spec chars (s : str) :
  exists a b,
    s = a ++ str_strip chars s ++ b /\
    Forall (fun c => In c chars) a /\
    Forall (fun c => In c chars) b /\
    (forall c r, str_strip chars s = c :: r -> ~ In c chars) /\
    (forall c r, str_strip chars s = r ++ [c] -> ~ In c chars).
Proof.
  unfold str_strip, str_rstrip, str_lstrip.
  set (t := drop_while (mem chars) s).
  exists (take_while (mem chars) s), (rev (take_while (mem chars) (rev t))).
  assert (Hrev : t = rev (drop_while (mem chars) (rev t))
                     ++ rev (take_while (mem chars) (rev t))).
  { rewrite <- rev_app_distr, take_drop_while; symmetry; apply rev_involutive. }
  assert (Hmem : forall l, Forall (fun c => In c chars) (take_while (mem chars) l)).
  { intros l; eapply Forall_impl; [|apply take_while_all].
    intros c; apply mem_true. }
  repeat split.
  - rewrite <- Hrev; symmetry; apply take_drop_while.
  - apply Hmem.
  - apply Forall_rev, Hmem.
  - intros c r E Hin.
    destruct (drop_while (mem chars) (rev t)) as [|x l] eqn:Ed; [discriminate|].
    assert (Ht : t = (c :: r) ++ rev (take_while (mem chars) (rev t)))
      by (rewrite <- E; exact Hrev).
    pose proof (drop_while_head (mem chars) s c _ Ht) as Hc.
    apply mem_true in Hin; congruence.
  - intros c r E Hin.
    apply (f_equal (@rev ascii)) in E.
    rewrite rev_involutive, rev_app_distr in E; simpl in E.
    apply drop_while_head in E; apply mem_true in Hin; congruence.
Qed.

(** ** Configuration *)

Lemma malformed_split (v : str) :
  (length (str_split "="%char v) =? 2) = false <-> malformed v.
Proof.
  unfold malformed; rewrite str_split_length, Nat.eqb_neq; lia.
Qed.


Section Configuration.
Context {P : Platform}.

Lemma get_config_replace_valid (source target : str) rest (d : dict) :
  ~ In "="%char source -> ~ In "="%char target ->
  get_config_replace ((source ++ "="%char :: target) :: rest) d =
    get_config_replace rest
      (dict_set (strip_quotes source) (strip_quotes target) d).
Proof.
  intros Hs Ht; cbn [get_config_replace].
  rewrite str_split_pair by assumption; reflexivity.
Qed.




(** C9, as amended.  For a value [source=target], the stored key and
    value are the two parts with every leading and trailing straight
    single quote removed and then every leading and trailing double quote
    removed: [strip] takes off a whole run of quotes, not one layer. *)
Theorem replace_value_stored (source target : str) (rest : list str) (d : dict) :
  ~ In "="%char source -> ~ In "="%char target ->
  get_config_replace ((source ++ "="%char :: target) :: rest) d =
    get_config_replace rest
      (dict_set (strip_quotes source) (strip_quotes target) d) /\
  (forall part : str,
     let inner := str_strip quote1 part in
     exists a b a' b',
       part = a ++ inner ++ b /\ inner = a' ++ strip_quotes part ++ b' /\
       Forall (fun c => c = "'"%char) (a ++ b) /\
       Forall (fun c => c = "034"%char) (a' ++ b') /\
       (forall c r, inner = c :: r \/ inner = r ++ [c] -> c <> "'"%char) /\
       (forall c r, strip_quotes part = c :: r \/ strip_quotes part = r ++ [c] ->
                    c <> "034"%char)).
Proof.
  intros Hs Ht; split; [now apply get_config_replace_valid|].
  intros part inner.
  destruct (str_strip_spec quote1 part) as (a & b & E1 & Ha & Hb & Hh & Hl).
  destruct (str_strip_spec quote2 inner) as (a' & b' & E2 & Ha' & Hb' & Hh' & Hl').
  exists a, b, a', b'; fold inner in E1, Hh, Hl; fold (strip_quotes part) in *.
  assert (Hone : forall (q : ascii) l, Forall (fun c => In c [q]) l ->
                                        Forall (fun c => c = q) l).
  { intros q l H; eapply Forall_impl; [|exact H].
    intros c [E|[]]; now symmetry. }
  repeat split; try assumption.
  - apply Forall_app; split; apply Hone; assumption.
  - apply Forall_app; split; apply Hone; assumption.
  - intros c r [E|E] ->; [eapply Hh | eapply Hl]; try exact E; now left.
  - intros c r [E|E] ->; [eapply Hh' | eapply Hl']; try exact E; now left.
Qed.

(** C10.  A value [=target] is accepted: it is stored under the empty
    key.  Replacing the empty string puts the target before every
    character of the padded name and once more at its end. *)
Theorem empty_source_replace (target : str) :
  ~ In "="%char target ->
  (forall rest (d : dict),
     get_config_replace (("="%char :: target) :: rest) d =
       get_config_replace rest (dict_set [] (strip_quotes target) d)) /\
  (forall args (w w1 : World) p,
     parse_args args w =
       (w1, Ok {| ns_path := p; ns_replace := Some ["="%char :: target] |}) ->
     let ns := {| ns_path := p; ns_replace := Some ["="%char :: target] |} in
     Path_exists (resolved_path ns w1) w1 = Ok true ->
     get_config args w =
       (w1, Ok {| cwd := resolved_path ns w1;
                  replace := [([], strip_quotes target)] |})) /\
  (forall (self : File) padding (v : str),
     get_new_filename self padding [([], v)] =
       flat_map (fun c => v ++ [c]) (add_padding (old_filename self) padding)
       ++ v).
Proof.
  intros Ht; split; [|split].
  - intros rest d.
    apply (get_config_replace_valid [] target rest d); [intros []|exact Ht].
  - intros args w w1 p Hparse ns Hex.
    unfold get_config, bind at 1; rewrite Hparse.
    assert (E : get_config_replace ["="%char :: target] [] =
                ret [([], strip_quotes target)]).
    { apply (get_config_replace_valid [] target [] []); [intros []|exact Ht]. }
    unfold resolved_path in *; subst ns; cbn [ns_path ns_replace] in *.
    rewrite E.
    destruct p; unfold bind, query, attempt, ret; cbn; rewrite Hex; reflexivity.
  - reflexivity.
Qed.

End Configuration.

(** ** Counting *)

Lemma counter_get_incr e k (c : list (str * nat)) :
  counter_get k (counter_incr e c) =
    if str_eq_dec k e then S (counter_get k c) else counter_get k c.
Proof.
  unfold counter_get; induction c as [|[k' n] c IH]; simpl.
  - unfold str_eqb; destruct (str_eq_dec k e); reflexivity.
  - destruct (str_eqb e k') eqn:Eek; simpl.
    + apply str_eqb_eq in Eek as ->.
      unfold str_eqb; destruct (str_eq_dec k k'); reflexivity.
    + destruct (str_eqb k k') eqn:Ekk.
      * apply str_eqb_eq in Ekk as ->; apply str_eqb_neq in Eek.
        destruct (str_eq_dec k' e); [congruence | reflexivity].
      * exact IH.
Qed.

Lemma counter_incr_keys e (c : list (str * nat)) :
  map fst (counter_incr e c) =
    if in_dec str_eq_dec e (map fst c) then map fst c else map fst c ++ [e].
Proof.
  induction c as [|[k n] c IH]; simpl; [reflexivity|].
  destruct (str_eqb e k) eqn:E; simpl.
  - apply str_eqb_eq in E as ->.
    destruct (str_eq_dec k k); [reflexivity | congruence].
  - apply str_eqb_neq in E.
    destruct (str_eq_dec k e); [congruence|].
    rewrite IH; destruct (in_dec str_eq_dec e (map fst c)); reflexivity.
Qed.

Lemma Counter_snoc elems e : Counter (elems ++ [e]) = counter_incr e (Counter elems).
Proof. unfold Counter; now rewrite fold_left_app. Qed.

Lemma Counter_get elems k : counter_get k (Counter elems) = count_occ str_eq_dec elems k.
Proof.
  induction elems as [|e elems IH] using rev_ind; [reflexivity|].
  rewrite Counter_snoc, counter_get_incr, count_occ_app, IH; simpl.
  destruct (str_eq_dec k e), (str_eq_dec e k); try congruence; lia.
Qed.

Lemma Counter_NoDup elems : NoDup (map fst (Counter elems)).
Proof.
  induction elems as [|e elems IH] using rev_ind; [constructor|].
  rewrite Counter_snoc, counter_incr_keys.
  destruct (in_dec str_eq_dec e (map fst (Counter elems))) as [Hin|Hout];
    [exact IH|].
  apply NoDup_app; [exact IH | repeat constructor; intros [] |].
  intros x Hx [<-|[]]; contradiction.
Qed.

Lemma counter_get_key k (c : list (str * nat)) :
  counter_get k c <> 0 -> In k (map fst c).
Proof.
  unfold counter_get; destruct (find _ c) as [kv|] eqn:E; [intros _|congruence].
  apply find_some in E as [Hin Hk]; apply str_eqb_eq in Hk as ->.
  now apply in_map.
Qed.

Lemma counter_get_entry k n (c : list (str * nat)) :
  NoDup (map fst c) -> In (k, n) c -> counter_get k c = n.
Proof.
  unfold counter_get; induction c as [|[k' n'] c IH]; intros Hnd Hin;
    [contradiction|].
  simpl in *; inversion Hnd as [|? ? Hout Hnd']; subst.
  destruct Hin as [E|Hin].
  - injection E as -> ->; now rewrite str_eqb_refl.
  - destruct (str_eqb k k') eqn:Ek.
    + apply str_eqb_eq in Ek as ->; exfalso; apply Hout.
      now apply (in_map fst) in Hin.
    + now apply IH.
Qed.

(** The keys of a counter stand in the order of first occurrence: what
    comes before the first [m] in the elements already has its key before
    the key [m]. *)
Lemma Counter_order elems ks1 m ks2 :
  map fst (Counter elems) = ks1 ++ m :: ks2 ->
  exists l1 l2, elems = l1 ++ m :: l2 /\ (forall y, In y l1 -> In y ks1).
Proof.
  revert ks1 m ks2; induction elems as [|e elems IH] using rev_ind;
    intros ks1 m ks2 E.
  - destruct ks1; discriminate.
  - rewrite Counter_snoc, counter_incr_keys in E.
    destruct (in_dec str_eq_dec e (map fst (Counter elems))) as [Hin|Hout].
    + destruct (IH _ _ _ E) as (l1 & l2 & -> & H1).
      exists l1, (l2 ++ [e]); split; [now rewrite <- app_assoc | exact H1].
    + destruct ks2 as [|k ks2 _] using rev_ind.
      * apply app_inj_tail in E as [E ->].
        exists elems, []; split; [reflexivity|].
        intros y Hy; rewrite <- E; apply counter_get_key.
        rewrite Counter_get.
        apply (count_occ_In str_eq_dec) in Hy; lia.
      * change (ks1 ++ m :: ks2 ++ [k]) with (ks1 ++ (m :: ks2) ++ [k]) in E.
        rewrite app_assoc in E; apply app_inj_tail in E as [E _].
        destruct (IH _ _ _ E) as (l1 & l2 & -> & H1).
        exists l1, (l2 ++ [e]); split; [now rewrite <- app_assoc | exact H1].
Qed.

(** [max] with a key: the item returned is never beaten, and nothing
    before it equals it. *)
Lemma max_first_fold (rest : list (str * nat)) (best : str * nat) :
  let r := fold_left (fun best y => if snd best <? snd y then y else best)
             rest best in
  (r = best /\ forall y, In y rest -> snd y <= snd best) \/
  (exists c1 c2, rest = c1 ++ r :: c2 /\ snd best < snd r /\
     (forall y, In y c1 -> snd y < snd r) /\
     (forall y, In y c2 -> snd y <= snd r)).
Proof.
  revert best; induction rest as [|y rest IH]; intros best; cbn zeta.
  - left; split; [reflexivity | intros ? []].
  - cbn [fold_left]; destruct (snd best <? snd y) eqn:E.
    + apply Nat.ltb_lt in E; right.
      destruct (IH y) as [[-> Hle]|(c1 & c2 & Hrest & Hlt & H1 & H2)].
      * exists [], rest; repeat split; [exact E | intros ? [] | exact Hle].
      * exists (y :: c1), c2; repeat split.
        -- simpl; f_equal; exact Hrest.
        -- lia.
        -- intros z [<-|Hz]; [lia | now apply H1].
        -- exact H2.
    + apply Nat.ltb_ge in E.
      destruct (IH best) as [[-> Hle]|(c1 & c2 & Hrest & Hlt & H1 & H2)].
      * left; split; [reflexivity|].
        intros z [<-|Hz]; [exact E | now apply Hle].
      * right; exists (y :: c1), c2; repeat split.
        -- simpl; f_equal; exact Hrest.
        -- exact Hlt.
        -- intros z [<-|Hz]; [lia | now apply H1].
        -- exact H2.
Qed.

Lemma most_common_1_spec (c : list (str * nat)) :
  c <> [] ->
  exists r c1 c2,
    most_common_1 c = [r] /\ c = c1 ++ r :: c2 /\
    (forall y, In y c1 -> snd y < snd r) /\
    (forall y, In y c2 -> snd y <= snd r).
Proof.
  destruct c as [|x rest]; [congruence|intros _].
  cbn [most_common_1].
  destruct (max_first_fold rest x) as [[E Hle]|(c1 & c2 & Hrest & Hlt & H1 & H2)].
  - eexists _, [], rest; split; [reflexivity|].
    rewrite E; repeat split; [intros ? [] | exact Hle].
  - eexists _, (x :: c1), c2; split; [reflexivity|].
    repeat split; [simpl; f_equal; exact Hrest | | exact H2].
    intros z [<-|Hz]; [exact Hlt | now apply H1].
Qed.

(** ** The majority extension *)

Section Majority.
Context {P : Platform} {L : PlatformLaws P}.

Lemma truthy_casefold (e : str) : truthy (casefold e) = truthy e.
Proof.
  destruct e as [|a e].
  - now rewrite (proj2 (casefold_nil []) eq_refl).
  - destruct (casefold (a :: e)) eqn:Ec; [|reflexivity].
    apply (proj1 (casefold_nil _)) in Ec; discriminate.
Qed.

Lemma majority_extensions (fs : list File) :
  map (fun file => casefold (File_ext file))
    (filter (fun file => truthy (casefold (File_ext file))) fs)
  = folded_extensions fs.
Proof.
  unfold folded_extensions; f_equal; apply filter_ext.
  intros file; apply truthy_casefold.
Qed.

Lemma folded_extensions_nil (fs : list File) :
  folded_extensions fs = [] <-> forall file, In file fs -> File_ext file = [].
Proof.
  unfold folded_extensions; split.
  - intros E file Hin.
    destruct (File_ext file) eqn:Ee; [reflexivity|exfalso].
    apply map_eq_nil in E.
    assert (Hf : In file (filter (fun file => truthy (File_ext file)) fs)).
    { apply filter_In; split; [exact Hin | now rewrite Ee]. }
    rewrite E in Hf; contradiction.
  - intros H.
    replace (filter (fun file => truthy (File_ext file)) fs) with (@nil File);
      [reflexivity|].
    symmetry; induction fs as [|f fs IH]; [reflexivity|]; simpl.
    rewrite (H f (or_introl eq_refl)); simpl.
    apply IH; intros file Hin; apply H; now right.
Qed.

Lemma Counter_nil elems : Counter elems = [] -> elems = [].
Proof.
  destruct elems as [|e elems]; [reflexivity|intros E; exfalso].
  pose proof (Counter_get (e :: elems) e) as H.
  rewrite E in H; simpl in H.
  destruct (str_eq_dec e e); [discriminate | congruence].
Qed.

(** The value of [majority] when it is worked out from the files. *)
Lemma majority_body_spec (self : Folder) :
  let exts := folded_extensions (files self) in
  (exts = [] /\ majority_body self = Raise IndexError) \/
  (exists m,
     majority_body self = Ok m /\ In m exts /\
     (forall e, count_occ str_eq_dec exts e <= count_occ str_eq_dec exts m) /\
     (forall e, e <> m ->
        count_occ str_eq_dec exts e = count_occ str_eq_dec exts m ->
        exists l1 l2, exts = l1 ++ m :: l2 /\ ~ In e l1)).
Proof.
  intros exts; unfold majority_body.
  rewrite majority_extensions; fold exts.
  destruct (Counter exts) as [|x rest] eqn:Ec.
  - left; split; [now apply Counter_nil | reflexivity].
  - right.
    destruct (most_common_1_spec (x :: rest)) as (r & c1 & c2 & -> & Hc & H1 & H2);
      [discriminate|].
    rewrite <- Ec in Hc; destruct r as [m n]; exists m.
    pose proof (Counter_NoDup exts) as Hnd.
    assert (Hn : count_occ str_eq_dec exts m = n).
    { rewrite <- Counter_get; apply counter_get_entry; [exact Hnd|].
      rewrite Hc; apply in_or_app; right; left; reflexivity. }
    assert (Hposn : 0 < n).
    { destruct (in_dec str_eq_dec m exts) as [Hin|Hout].
      - apply (count_occ_In str_eq_dec) in Hin; lia.
      - exfalso; apply Hout.
        assert (Hk : In m (map fst (Counter exts))).
        { rewrite Hc, map_app; apply in_or_app; right; left; reflexivity. }
        clear - Hk; induction exts as [|e exts IH] using rev_ind;
          [contradiction|].
        rewrite Counter_snoc, counter_incr_keys in Hk.
        apply in_or_app.
        destruct (in_dec str_eq_dec e (map fst (Counter exts))).
        + left; now apply IH.
        + apply in_app_or in Hk as [Hk|[<-|[]]]; [left; now apply IH|].
          right; left; reflexivity. }
    assert (Hentry : forall e, In e exts ->
              exists ne, In (e, ne) (Counter exts) /\
                         ne = count_occ str_eq_dec exts e).
    { intros e Hin.
      assert (Hk : In e (map fst (Counter exts))).
      { apply counter_get_key; rewrite Counter_get.
        apply (count_occ_In str_eq_dec) in Hin; lia. }
      apply in_map_iff in Hk as ([e' ne] & E & Hk); simpl in E; subst e'.
      exists ne; split; [exact Hk|].
      rewrite <- Counter_get; symmetry; now apply counter_get_entry. }
    split; [reflexivity|]; split; [|split].
    + apply (count_occ_In str_eq_dec); lia.
    + intros e; destruct (in_dec str_eq_dec e exts) as [Hin|Hout].
      * destruct (Hentry e Hin) as (ne & Hk & <-).
        rewrite Hc in Hk; apply in_app_or in Hk as [Hk|[E|Hk]].
        -- apply H1 in Hk; simpl in Hk; lia.
        -- injection E as _ <-; lia.
        -- apply H2 in Hk; simpl in Hk; lia.
      * apply (count_occ_not_In str_eq_dec) in Hout; lia.
    + intros e Hne Htie.
      assert (Hkeys : map fst (Counter exts) = map fst c1 ++ m :: map fst c2)
        by (rewrite Hc, map_app; reflexivity).
      destruct (Counter_order _ _ _ _ Hkeys) as (l1 & l2 & Hl & Hbefore).
      exists l1, l2; split; [exact Hl|].
      intros Hin; apply Hbefore, in_map_iff in Hin as ([e' ne] & E & Hk).
      simpl in E; subst e'.
      assert (Hne' : ne = count_occ str_eq_dec exts e).
      { rewrite <- Counter_get; symmetry; apply counter_get_entry;
          [exact Hnd | rewrite Hc; apply in_or_app; now left]. }
      apply H1 in Hk; simpl in Hk; lia.
Qed.

(** C5.  In a folder with a file that has an extension, reading
    [majority] for the first time gives a case-folded extension with the
    highest count among the case-folded extensions of the files that have
    one; of several extensions with that count, it gives the one that
    comes first in scan order. *)
Theorem majority_spec (self : Folder) :
  majority_cell self = None ->
  (exists file, In file (files self) /\ File_ext file <> []) ->
  let exts := folded_extensions (files self) in
  exists m self',
    Folder_majority self = Ok (m, self') /\
    In m exts /\
    (forall e, count_occ str_eq_dec exts e <= count_occ str_eq_dec exts m) /\
    (forall e, e <> m ->
       count_occ str_eq_dec exts e = count_occ str_eq_dec exts m ->
       exists l1 l2, exts = l1 ++ m :: l2 /\ ~ In e l1).
Proof.
  intros Hcell (file & Hin & Hext) exts.
  destruct (majority_body_spec self) as [[Hnil _]|(m & Hm & Hrest)].
  - exfalso; apply Hext.
    now apply (proj1 (folded_extensions_nil (files self)) Hnil).
  - exists m; unfold Folder_majority; rewrite Hcell, Hm.
    eexists; split; [reflexivity | exact Hrest].
Qed.

(** C6.  Reading [majority] for the first time raises [IndexError]
    exactly when no file of the folder has an extension; whenever it
    returns, the value is the folded extension of one of the files. *)
Theorem majority_fails_iff (self : Folder) :
  majority_cell self = None ->
  (Folder_majority self = Raise IndexError <->
   forall file, In file (files self) -> File_ext file = []) /\
  (forall m self', Folder_majority self = Ok (m, self') ->
   exists file, In file (files self) /\ File_ext file <> [] /\
                m = casefold (File_ext file)).
Proof.
  intros Hcell; unfold Folder_majority; rewrite Hcell.
  destruct (majority_body_spec self) as [[Hnil ->]|(m & -> & Hin & _)].
  - split; [split; [intros _|reflexivity]|discriminate].
    now apply folded_extensions_nil.
  - assert (Hfile : exists file, In file (files self) /\ File_ext file <> [] /\
                                 m = casefold (File_ext file)).
    { unfold folded_extensions in Hin.
      apply in_map_iff in Hin as (file & E & Hf).
      apply filter_In in Hf as [Hf Ht]; apply truthy_true in Ht.
      exists file; auto. }
    split; [split; [discriminate|]|].
    + intros Hnone; exfalso.
      destruct Hfile as (file & Hf & Hne & _); exact (Hne (Hnone file Hf)).
    + intros m' self' E; injection E as <- _; exact Hfile.
Qed.

End Majority.

(** ** The run loop *)

Lemma nth_error_list_set_other {A} (l : list A) i j x :
  i <> j -> nth_error (list_set i x l) j = nth_error l j.
Proof.
  revert i j; induction l as [|a l IH]; intros [|i] [|j] H; simpl;
    try reflexivity; [congruence | apply IH; congruence].
Qed.

Lemma Forall2_list_set {A B} (R : A -> B -> Prop) l l' i x y :
  Forall2 R l l' -> nth_error l' i = Some y -> R x y ->
  Forall2 R (list_set i x l) l'.
Proof.
  intros H; revert i; induction H as [|a b l l' Hab H IH]; intros [|i] Hy Hxy;
    simpl in *; try discriminate.
  - injection Hy as ->; now constructor.
  - constructor; [exact Hab | now apply IH].
Qed.

Lemma skipn_nth_error {A} (l : list A) k x :
  nth_error l k = Some x -> skipn k l = x :: skipn (S k) l.
Proof.
  revert k; induction l as [|a l IH]; intros [|k] H; simpl in *;
    try discriminate; [now injection H as -> | now apply IH].
Qed.

Section RunLoop.
Context {P : Platform} {L : PlatformLaws P}.

Lemma same_file_extensions (l l' : list File) :
  Forall2 same_file l l' ->
  map (fun file => casefold (File_ext file))
    (filter (fun file => truthy (casefold (File_ext file))) l) =
  map (fun file => casefold (File_ext file))
    (filter (fun file => truthy (casefold (File_ext file))) l').
Proof.
  induction 1 as [|f g l l' (_ & Hn & _) _ IH]; [reflexivity|]; simpl.
  assert (E : File_ext f = File_ext g) by (unfold File_ext; now rewrite Hn).
  rewrite E; destruct (truthy (casefold (File_ext g))); simpl;
    now rewrite ?E, IH.
Qed.

Lemma same_file_names (l l' : list File) :
  Forall2 same_file l l' -> map File_name l = map File_name l'.
Proof.
  induction 1 as [|f g l l' (_ & Hn & _) _ IH]; [reflexivity|]; simpl.
  assert (E : File_name f = File_name g) by (unfold File_name; now rewrite Hn).
  now rewrite E, IH.
Qed.

Lemma same_file_majority (self other : Folder) :
  Forall2 same_file (files self) (files other) ->
  majority_body self = majority_body other.
Proof.
  intros H; unfold majority_body; now rewrite (same_file_extensions _ _ H).
Qed.

Lemma same_file_padding (self other : Folder) :
  Forall2 same_file (files self) (files other) ->
  padding_body self = padding_body other.
Proof.
  intros H; unfold padding_body; now rewrite (same_file_names _ _ H).
Qed.

Lemma Forall2_same_refl (l : list File) : Forall2 same_file l l.
Proof. induction l; constructor; [repeat split | assumption]. Qed.

Section Loop.
Variables (config : Config) (callback : str -> M unit).
Variables (start : Folder) (majority : str).
Hypothesis Hfresh :
  Forall (fun file => old_filename file = filename file /\
                      new_filename file = filename file) (files start).
Hypothesis Hmajority : majority_body start = Ok majority.






Lemma looks_like_target_eq (file : File) :
  looks_like_target file majority =
    truthy (File_ext file)
    && str_eqb (casefold (File_ext file)) (casefold majority).
Proof.
  unfold looks_like_target; cbn [forallb].
  now rewrite truthy_casefold, andb_true_r.
Qed.


End Loop.
End RunLoop.

Section Run.
Context {P : Platform} {L : PlatformLaws P}.

Lemma get_target_folder_scanned (path : Path) (w w' : World) (folder : Folder) :
  get_target_folder path w = (w', Ok folder) -> scanned folder.
Proof.
  unfold get_target_folder, parse_contents, bind, query, ret.
  cbn [Folder_init Folder_path].
  destruct (os_listdir path w) as [listing|e]; [|discriminate].
  intros E; injection E as _ <-.
  split; [intros m H; discriminate|].
  split; [intros p H; discriminate|].
  cbn [files set_files]; apply Forall_forall; intros file Hin.
  apply in_map_iff in Hin as (name & <- & _); split; reflexivity.
Qed.

(** Reading [padding] gives the width computed from the files and leaves
    a scanned folder scanned. *)
Lemma Folder_padding_scanned (self : Folder) :
  scanned self ->
  fst (Folder_padding self) = padding_body self /\
  files (snd (Folder_padding self)) = files self /\
  scanned (snd (Folder_padding self)).
Proof.
  intros (Hmaj & Hpad & Hfresh); unfold Folder_padding.
  destruct (padding_cell self) as [p|] eqn:Hcell; cbn [fst snd].
  - split; [now apply Hpad|]; split; [reflexivity|].
    split; [exact Hmaj|]; split; [|exact Hfresh].
    intros q Hq; apply Hpad; congruence.
  - split; [reflexivity|]; split; [reflexivity|].
    split; [exact Hmaj|]; split; [|exact Hfresh].
    cbn [padding_cell]; intros q Hq; injection Hq as <-; reflexivity.
Qed.

(** ** The run from any folder *)

Section Turns.
Variables (config : Config) (callback : str -> M unit).
Variables (start start1 : Folder) (majority : str) (padding : Z).
Hypothesis Hmajority : Folder_majority start = Ok (majority, start1).
Hypothesis Hpadding : fst (Folder_padding start) = padding.

Lemma rinv_Folder_majority k self :
  run_inv start majority padding k self ->
  exists self',
    Folder_majority self = Ok (majority, self') /\
    run_inv start majority padding k self'.
Proof.
  intros [Hs Hr Hm Hp]; unfold Folder_majority in *.
  destruct Hm as [Hm | Hm]; rewrite Hm.
  - destruct (majority_cell start) as [m|] eqn:Ec.
    + injection Hmajority as -> _.
      exists self; split; [reflexivity|]; constructor; auto.
    + rewrite (same_file_majority _ _ Hs).
      destruct (majority_body start) as [m|e]; [|discriminate].
      injection Hmajority as -> _.
      eexists; split; [reflexivity|].
      constructor; simpl; auto.
  - exists self; split; [reflexivity|]; constructor; auto.
Qed.

Lemma rinv_Folder_padding k self :
  run_inv start majority padding k self ->
  exists self',
    Folder_padding self = (padding, self') /\
    run_inv start majority padding k self'.
Proof.
  intros [Hs Hr Hm Hp]; unfold Folder_padding in *.
  destruct Hp as [Hp | Hp]; rewrite Hp.
  - destruct (padding_cell start) as [p|] eqn:Ec; simpl in Hpadding.
    + subst p; exists self; split; [reflexivity|]; constructor; auto.
    + rewrite (same_file_padding _ _ Hs), Hpadding.
      eexists; split; [reflexivity|].
      constructor; simpl; auto.
  - exists self; split; [reflexivity|]; constructor; auto.
Qed.

Lemma rinv_next k self file file' :
  run_inv start majority padding k self ->
  nth_error (files start) k = Some file -> same_file file' file ->
  run_inv start majority padding (S k)
    (set_files self (list_set k file' (files self))).
Proof.
  intros [Hs Hr Hm Hp] Hk Hsame; constructor; simpl; auto.
  - now apply Forall2_list_set with (y := file).
  - intros j Hj; rewrite nth_error_list_set_other by lia; apply Hr; lia.
Qed.

Lemma rinv_step k self :
  run_inv start majority padding k self ->
  run_inv start majority padding (S k) self.
Proof.
  intros [Hs Hr Hm Hp]; constructor; auto.
  intros j Hj; apply Hr; lia.
Qed.

Lemma run_turns n : forall k self (w : World),
  k + n = length (files start) ->
  run_inv start majority padding k self ->
  effects (for_each (run_turn config callback) self (seq k n) w) =
  renames_and_reports callback padding (replace config)
    (filter (targeted majority padding (replace config))
       (skipn k (files start))) w.
Proof.
  induction n as [|n IH]; intros k self w Hlen Hinv.
  - rewrite skipn_all2 by lia; reflexivity.
  - destruct (nth_error (files start) k) as [file|] eqn:Hk;
      [|apply nth_error_None in Hk; lia].
    rewrite (skipn_nth_error _ _ _ Hk).
    destruct (rinv_Folder_majority k self Hinv) as (self1 & Hmaj & Hinv1).
    destruct (rinv_Folder_padding k self1 Hinv1) as (self2 & Hpad & Hinv2).
    cbn [seq for_each filter]; unfold bind at 1.
    unfold run_turn at 1.
    rewrite (rinv_rest _ _ _ _ _ Hinv k (Nat.le_refl k)), Hk.
    unfold bind at 1, lift; rewrite Hmaj.
    unfold targeted at 1; rewrite <- looks_like_target_eq.
    destruct (looks_like_target file majority); cbn [andb].
    + rewrite Hpad; unfold rename_to_pattern.
      destruct (str_eqb (get_new_filename file padding (replace config))
                  (old_filename file)) eqn:Eq; cbn [negb].
      * unfold bind at 1, ret at 1; unfold ret at 1.
        apply IH; [lia|].
        apply rinv_next with (file := file); [exact Hinv2 | exact Hk|].
        repeat split.
      * cbn [renames_and_reports].
        unfold bind, do_rename, ret;
          cbn [path old_filename new_filename set_new_filename renamed_message].
        destruct (Path_rename _ _ w) as [w' [e|]]; [reflexivity|].
        destruct (callback _ w') as [w'' [[]|e]]; [|reflexivity].
        fold (@bind P); apply IH; [lia|].
        apply rinv_next with (file := file); [exact Hinv2 | exact Hk|].
        repeat split.
    + unfold ret at 1; apply IH; [lia | now apply rinv_step].
Qed.

End Turns.

(** C4, as amended.  From any folder, [run] acts on the world as follows.
    When the folder's [majority] reads a value, the files are taken in
    stored order and, for each file whose extension is not empty, equals
    that majority up to case and whose computed name differs from the name
    it was scanned under, the file system is asked to move the scanned name
    to the computed one and then one line is reported, a tab followed by
    [Renamed old to new]; the other files cause nothing; the first refusal,
    of the file system or of the report, ends the run with that exception.
    When [majority] raises, no file has an extension, and the run raises
    at its first file without touching the world, or does nothing when
    there is no file. *)
Theorem run_effects (target_folder : Folder) (config : Config)
    (callback : str -> M unit) (w : World) :
  let padding := fst (Folder_padding target_folder) in
  match Folder_majority target_folder with
  | Ok (majority, _) =>
      effects (run target_folder config callback w) =
      renames_and_reports callback padding (replace config)
        (filter (targeted majority padding (replace config))
           (files target_folder)) w
  | Raise e =>
      effects (run target_folder config callback w) =
      (w, match files target_folder with [] => None | _ :: _ => Some e end) /\
      forall file majority,
        In file (files target_folder) ->
        targeted majority padding (replace config) file = false
  end.
Proof.
  intros padding.
  destruct (Folder_majority target_folder) as [[majority folder1]|e] eqn:Hmaj.
  - unfold run.
    apply (run_turns config callback target_folder folder1 majority padding
             Hmaj eq_refl (length (files target_folder)) 0 target_folder w);
      [reflexivity|].
    constructor; auto using Forall2_same_refl.
  - unfold Folder_majority in Hmaj.
    destruct (majority_cell target_folder) as [m|] eqn:Hcell; [discriminate|].
    destruct (majority_body target_folder) as [m|e'] eqn:Hbody;
      [discriminate|].
    injection Hmaj as ->.
    destruct (majority_body_spec target_folder) as [[Hnil _]|(m & Hm & _)];
      [|congruence].
    split.
    + unfold run; destruct (files target_folder) as [|file rest] eqn:Hfiles;
        [reflexivity|].
      cbn [length seq for_each]; unfold bind at 1, run_turn.
      rewrite Hfiles; cbn [nth_error].
      unfold bind at 1, lift, Folder_majority; now rewrite Hcell, Hbody.
    + intros file majority Hin; unfold targeted.
      rewrite (proj1 (folded_extensions_nil _) Hnil file Hin); reflexivity.
Qed.

End Run.

(** * Further properties of the padding algorithm *)

Lemma digit_zero : is_digit "0"%char = true.
Proof. reflexivity. Qed.

(** The first digit run of a padded name: the zeros, then the old run. *)
Lemma add_padding_run name padding :
  digits_of name <> [] ->
  first_digit_run (add_padding name padding) (leading name)
    (repeat "0"%char
       (Z.to_nat (padding - Z.of_nat (length (digits_of name))))
     ++ digits_of name)
    (trailing name).
Proof.
  intros Hne; rewrite add_padding_eq.
  destruct (scan_first_digit_run name Hne) as (_ & Hp & _ & Hb & Hs).
  destruct (digits_of name) as [|d ds] eqn:E; [congruence|].
  cbn [truthy]; repeat split.
  - now rewrite <- app_assoc.
  - exact Hp.
  - destruct (Z.to_nat _); discriminate.
  - apply Forall_app; split; [|exact Hb].
    apply Forall_forall; intros c Hc; apply repeat_spec in Hc as ->.
    exact digit_zero.
  - exact Hs.
Qed.

(** X1.  Padding twice to the same width is padding once. *)
Theorem add_padding_idempotent (name : str) (padding : Z) :
  add_padding (add_padding name padding) padding = add_padding name padding.
Proof.
  destruct (digits_of name) as [|d ds] eqn:E.
  - assert (H : add_padding name padding = name)
      by (rewrite add_padding_eq, E; reflexivity).
    now rewrite !H.
  - assert (Hne : digits_of name <> []) by (rewrite E; discriminate).
    pose proof (add_padding_run name padding Hne) as Hrun.
    destruct (first_digit_run_scan _ _ _ _ Hrun) as (Hl & Hd & Ht).
    rewrite (add_padding_eq (add_padding name padding)), <- Hl, <- Hd, <- Ht.
    destruct (repeat "0"%char _ ++ digits_of name) as [|x xs] eqn:Ex.
    { apply app_eq_nil in Ex as [_ Ex]; congruence. }
    cbn [truthy]; rewrite <- Ex.
    replace (Z.to_nat (padding - Z.of_nat (length (repeat "0"%char
               (Z.to_nat (padding - Z.of_nat (length (digits_of name))))
               ++ digits_of name)))) with 0%nat
      by (rewrite length_app, repeat_length; lia).
    cbn [repeat app]; now rewrite (add_padding_eq name), E, <- app_assoc.
Qed.

(** X2.  Around the first digit run [body] of a name, padding keeps the
    prefix and the suffix and puts zeros before the run: the first digit
    run of the result is those zeros followed by [body], and its length is
    the greater of the width and the length of [body]. *)
Theorem add_padding_widens (name prefix body suffix : str) (padding : Z) :
  first_digit_run name prefix body suffix ->
  exists zeros,
    Forall (fun c => c = "0"%char) zeros /\
    first_digit_run (add_padding name padding) prefix (zeros ++ body) suffix /\
    Z.of_nat (length (zeros ++ body)) = Z.max padding (Z.of_nat (length body)) /\
    length (add_padding name padding) = length name + length zeros.
Proof.
  intros Hrun; pose proof Hrun as (Hname & _ & Hne & _).
  destruct (first_digit_run_scan _ _ _ _ Hrun) as (-> & -> & ->).
  exists (repeat "0"%char
            (Z.to_nat (padding - Z.of_nat (length (digits_of name))))).
  split; [|split; [|split]].
  - apply Forall_forall; intros c Hc; now apply repeat_spec in Hc.
  - now apply add_padding_run.
  - rewrite length_app, repeat_length; lia.
  - destruct (add_padding_run name padding Hne) as (-> & _).
    pose proof (f_equal (@length ascii) (leading_digits_trailing name)) as Hlen.
    rewrite !length_app in Hlen; rewrite !length_app; lia.
Qed.

(** X3.  [DIGITS] matches exactly the names that hold a digit, and group 1
    of the match is the first maximal digit run: its span lies inside
    the name, is not empty, and cuts the name around that run. *)
Theorem DIGITS_match_spec (name : str) :
  (DIGITS_match name = None <-> Forall (fun c => is_digit c = false) name) /\
  (forall m, DIGITS_match name = Some m ->
     start1 m < end1 m <= length name /\
     groups m = [firstn (end1 m - start1 m) (skipn (start1 m) name)] /\
     first_digit_run name (firstn (start1 m) name) (nth 0 (groups m) [])
       (skipn (end1 m) name)).
Proof.
  destruct (digits_of name) as [|d ds] eqn:E.
  - rewrite DIGITS_match_none by assumption.
    split; [|discriminate].
    split; [intros _; now apply digits_of_nil | reflexivity].
  - assert (Hne : digits_of name <> []) by (rewrite E; discriminate).
    rewrite (DIGITS_match_some name Hne); split.
    + split; [discriminate|]; intros Hall; exfalso.
      apply Hne; unfold digits_of.
      rewrite <- (skipn_take_while non_digit name).
      now apply (take_while_nil_skipn is_digit).
    + intros m Hm; injection Hm as <-; cbn [start1 end1 groups nth].
      pose proof (leading_digits_trailing name) as Hcut.
      pose proof (f_equal (@length ascii) Hcut) as Hlen.
      rewrite !length_app in Hlen.
      assert (Hpos : 0 < length (digits_of name)) by (rewrite E; simpl; lia).
      assert (Hfirst : firstn (length (leading name)) name = leading name)
        by apply firstn_take_while.
      assert (Hskip : skipn (length (leading name)) name
                      = digits_of name ++ trailing name).
      { unfold leading; rewrite skipn_take_while.
        symmetry; apply take_drop_while. }
      assert (Hrest : skipn (length (leading name) + length (digits_of name)) name
                      = trailing name).
      { rewrite Nat.add_comm, <- skipn_skipn, Hskip.
        now rewrite skipn_app, skipn_all, Nat.sub_diag. }
      split; [lia|]; split.
      * f_equal.
        replace (length (leading name) + length (digits_of name)
                 - length (leading name)) with (length (digits_of name)) by lia.
        rewrite Hskip, firstn_app, firstn_all, Nat.sub_diag; simpl.
        now rewrite app_nil_r.
      * rewrite Hfirst, Hrest; now apply scan_first_digit_run.
Qed.

(** X4.  The width of a list put together from two is the greater of
    their widths; it does not depend on the order of the names and is
    never negative. *)
Theorem calculate_padding_app (names more : list str) :
  calculate_padding (names ++ more) =
    Z.max (calculate_padding names) (calculate_padding more) /\
  (forall other, Permutation names other ->
     calculate_padding other = calculate_padding names) /\
  (0 <= calculate_padding names)%Z.
Proof.
  rewrite !calculate_padding_max; split; [|split; [|lia]].
  - rewrite map_app, list_max_app; lia.
  - intros other Hperm; rewrite calculate_padding_max; f_equal.
    induction Hperm as [|x l l' _ IH|x y l|l l' l'' _ IH1 _ IH2]; simpl; lia.
Qed.

(** X5.  Padded to the width computed over a list, every name of the list
    that holds a digit has a first digit run of exactly that width. *)
Theorem padding_is_uniform (names : list str) (name prefix body suffix : str) :
  In name names ->
  first_digit_run name prefix body suffix ->
  exists zeros,
    first_digit_run (add_padding name (calculate_padding names))
      prefix (zeros ++ body) suffix /\
    Z.of_nat (length (zeros ++ body)) = calculate_padding names.
Proof.
  intros Hin Hrun.
  pose proof Hrun as (_ & _ & Hne & _).
  destruct (first_digit_run_scan _ _ _ _ Hrun) as (-> & -> & ->).
  exists (repeat "0"%char
            (Z.to_nat (calculate_padding names
                       - Z.of_nat (length (digits_of name))))).
  split; [now apply add_padding_run|].
  assert (Hle : (Z.of_nat (length (digits_of name)) <= calculate_padding names)%Z).
  { rewrite calculate_padding_max; apply inj_le.
    pose proof (list_max_le (map run_length names)
                  (list_max (map run_length names))) as [H _].
    specialize (H (Nat.le_refl _)); rewrite Forall_forall in H.
    apply (H (run_length name)), in_map, Hin. }
  rewrite length_app, repeat_length; lia.
Qed.


(** * Further properties of files *)

(** [rfind]: the index found is that of the last occurrence. *)
Lemma rfind_from_spec c (s : str) (i found : Z) :
  (~ In c s /\ rfind_from c s i found = found) \/
  (exists a b, s = a ++ c :: b /\ ~ In c b /\
               rfind_from c s i found = (i + Z.of_nat (length a))%Z).
Proof.
  revert i found; induction s as [|x s IH]; intros i found; simpl.
  - left; split; [intros [] | reflexivity].
  - destruct (IH (i + 1)%Z (if Ascii.eqb x c then i else found))
      as [[Hout E]|(a & b & -> & Hb & E)].
    + destruct (Ascii.eqb x c) eqn:Ex.
      * apply Ascii.eqb_eq in Ex as ->; right.
        exists [], s; repeat split; [exact Hout | rewrite E; simpl; lia].
      * apply Ascii.eqb_neq in Ex; left; split; [|exact E].
        intros [H|H]; [congruence | contradiction].
    + right; exists (x :: a), b; repeat split; [exact Hb|].
      rewrite E; simpl length; lia.
Qed.

(** A name is its stem followed by its suffix; the suffix is empty, or a
    dot followed by at least one character and no further dot, after a
    stem that is not empty. *)
Lemma PurePath_split (name : str) :
  (PurePath_suffix name = [] /\ PurePath_stem name = name) \/
  (exists e, PurePath_suffix name = "."%char :: e /\ e <> [] /\
             ~ In "."%char e /\ PurePath_stem name <> [] /\
             name = PurePath_stem name ++ "."%char :: e).
Proof.
  unfold PurePath_suffix, PurePath_stem, str_rfind.
  destruct (rfind_from_spec "."%char name 0 (-1)) as [[_ ->]|(a & b & E & Hb & ->)].
  - left; now split.
  - subst name.
    match goal with
    | |- context [if ?c then _ else _] => destruct c eqn:C
    end; [right|left; now split].
    apply andb_true_iff in C as [C1 C2].
    apply Z.ltb_lt in C1, C2.
    rewrite length_app in C2; simpl length in C2.
    replace (Z.to_nat (0 + Z.of_nat (length a))) with (length a) by lia.
    exists b.
    rewrite skipn_app, skipn_all, Nat.sub_diag, firstn_app, firstn_all,
      Nat.sub_diag; simpl.
    rewrite app_nil_r; repeat split.
    + destruct b; [simpl in C2; lia | discriminate].
    + exact Hb.
    + destruct a; [simpl in C1; lia | discriminate].
Qed.

Section FileNames.
Context {P : Platform}.

(** The extension is the suffix without its dot. *)
Lemma File_ext_suffix (self : File) (e : str) :
  PurePath_suffix (Path_name (filename self)) = "."%char :: e ->
  File_ext self = e.
Proof.
  intros E; unfold File_ext; rewrite E.
  cbn [startswith lit list_ascii_of_string skipn].
  now rewrite Ascii.eqb_refl.
Qed.

(** X6.  The final component of a file's name is its [name] when the file
    has no extension, and otherwise its [name], a dot and its [ext]: then
    neither is empty and the extension holds no dot. *)
Theorem File_name_ext (self : File) :
  let component := Path_name (filename self) in
  (File_ext self = [] /\ File_name self = component) \/
  (File_ext self <> [] /\ File_name self <> [] /\
   ~ In "."%char (File_ext self) /\
   component = File_name self ++ "."%char :: File_ext self).
Proof.
  intros component; unfold File_name; fold component.
  destruct (PurePath_split component) as [[E ->]|(e & E & He & Hdot & Hs & Hcut)].
  - left; split; [|reflexivity].
    unfold File_ext; fold component; now rewrite E.
  - right; rewrite (File_ext_suffix self e E); auto.
Qed.

(** A digit run of the stem is a digit run of the whole component: what
    follows the stem starts with a dot. *)
Lemma stem_run (name prefix body suffix : str) :
  first_digit_run (PurePath_stem name) prefix body suffix ->
  exists suffix', first_digit_run name prefix body suffix'.
Proof.
  intros Hrun.
  destruct (PurePath_split name) as [[_ E]|(e & _ & _ & _ & _ & E)].
  - rewrite E in Hrun; now exists suffix.
  - destruct Hrun as (Hs & Hp & Hne & Hb & Hsuf).
    exists (suffix ++ "."%char :: e); repeat split; try assumption.
    + rewrite E at 1; rewrite Hs, <- !app_assoc; reflexivity.
    + intros c rest Hc; destruct suffix as [|x suffix].
      * injection Hc as <- _; reflexivity.
      * injection Hc as <- _; now apply (Hsuf x suffix).
Qed.

(** X7.  In a folder, a file whose stem holds a digit, padded to the
    folder's width, gets a first digit run of exactly that width: without
    replacements, all such files end with runs of one length.  (The file
    name is taken to be a bare name, its own final component, as the
    names of a directory listing are.) *)
Theorem padded_width_uniform (self : Folder) (file : File) :
  In file (files self) ->
  Path_name (filename file) = old_filename file ->
  Exists (fun c => is_digit c = true) (File_name file) ->
  exists prefix body suffix,
    first_digit_run (get_new_filename file (padding_body self) [])
      prefix body suffix /\
    Z.of_nat (length body) = padding_body self.
Proof.
  intros Hin Hname Hdigit.
  assert (Estem : File_name file = PurePath_stem (old_filename file))
    by (unfold File_name; now rewrite Hname).
  assert (Hne : digits_of (File_name file) <> []) by now apply digits_of_some.
  assert (Hstem : first_digit_run (PurePath_stem (old_filename file))
                    (leading (File_name file)) (digits_of (File_name file))
                    (trailing (File_name file)))
    by (rewrite <- Estem; now apply scan_first_digit_run).
  destruct (stem_run _ _ _ _ Hstem) as (suffix' & Hrun).
  destruct (first_digit_run_scan _ _ _ _ Hrun) as (Hl & Hd & Ht).
  assert (Hnew : digits_of (old_filename file) <> []) by (rewrite <- Hd; exact Hne).
  pose proof (add_padding_run (old_filename file) (padding_body self) Hnew) as Hpad.
  do 3 eexists; split; [exact Hpad|].
  assert (Hle : (Z.of_nat (length (digits_of (old_filename file)))
                 <= padding_body self)%Z).
  { unfold padding_body; rewrite calculate_padding_max; apply inj_le.
    pose proof (list_max_le (map run_length (map File_name (files self)))
                  (list_max (map run_length (map File_name (files self)))))
      as [H _].
    specialize (H (Nat.le_refl _)); rewrite Forall_forall in H.
    rewrite <- Hd; apply (H (run_length (File_name file))).
    apply in_map, in_map, Hin. }
  rewrite length_app, repeat_length; lia.
Qed.

Lemma str_replace_absent (s old new : str) :
  old <> [] -> (forall a b, s <> a ++ old ++ b) -> str_replace s old new = s.
Proof.
  intros Hold Habsent.
  apply (Substituted_unique old new s);
    [now apply str_replace_substituted | now apply Subst_none].
Qed.

(** X8.  A file is left alone when its name needs nothing: if its first
    digit run, when it has one, is at least as long as the width, and no
    source of the mapping occurs in its name as a substring (the empty
    source occurs in every name, so the mapping has none),
    [rename_to_pattern] returns false and does not touch the world. *)
Theorem rename_to_pattern_noop (self : File) (padding : Z) (replace : dict)
    (w : World) :
  (forall prefix body suffix,
     first_digit_run (old_filename self) prefix body suffix ->
     (padding <= Z.of_nat (length body))%Z) ->
  (forall source target, In (source, target) replace ->
     forall a b, old_filename self <> a ++ source ++ b) ->
  get_new_filename self padding replace = old_filename self /\
  rename_to_pattern self padding replace w = (w, Ok (false, self)).
Proof.
  intros Hwide Habsent.
  assert (Hpad : add_padding (old_filename self) padding = old_filename self).
  { rewrite add_padding_eq.
    destruct (digits_of (old_filename self)) as [|d ds] eqn:E; [reflexivity|].
    assert (Hne : digits_of (old_filename self) <> [])
      by (rewrite E; discriminate).
    specialize (Hwide _ _ _ (scan_first_digit_run _ Hne)).
    cbn [truthy]; rewrite <- E.
    replace (Z.to_nat (padding - Z.of_nat (length (digits_of (old_filename self)))))
      with 0%nat by lia.
    apply leading_digits_trailing. }
  assert (Hnew : get_new_filename self padding replace = old_filename self).
  { unfold get_new_filename; rewrite Hpad.
    induction replace as [|[source target] replace IH]; [reflexivity|].
    cbn [fold_left].
    pose proof (Habsent source target (or_introl eq_refl)) as Ha.
    assert (Hs : source <> []) by (intros ->; exact (Ha [] _ eq_refl)).
    rewrite str_replace_absent by assumption.
    apply IH; intros s t Hin; apply (Habsent s t); now right. }
  split; [exact Hnew|].
  unfold rename_to_pattern; now rewrite Hnew, str_eqb_refl.
Qed.

End FileNames.


(** * Further properties of the configuration *)

Lemma dict_get_set k k' v (d : dict) :
  dict_get k (dict_set k' v d) =
    if str_eq_dec k k' then Some v else dict_get k d.
Proof.
  unfold dict_get; induction d as [|[k0 v0] d IH]; simpl.
  - unfold str_eqb; destruct (str_eq_dec k k'); reflexivity.
  - destruct (str_eqb k' k0) eqn:E0; simpl.
    + apply str_eqb_eq in E0 as ->.
      unfold str_eqb; destruct (str_eq_dec k k0); reflexivity.
    + destruct (str_eqb k k0) eqn:E1.
      * apply str_eqb_eq in E1 as ->; apply str_eqb_neq in E0.
        destruct (str_eq_dec k0 k'); [congruence | reflexivity].
      * exact IH.
Qed.

Lemma dict_set_keys k v (d : dict) :
  map fst (dict_set k v d) =
    if in_dec str_eq_dec k (map fst d) then map fst d else map fst d ++ [k].
Proof.
  induction d as [|[k0 v0] d IH]; simpl; [reflexivity|].
  destruct (str_eqb k k0) eqn:E; simpl.
  - apply str_eqb_eq in E as ->.
    destruct (str_eq_dec k0 k0); [reflexivity | congruence].
  - apply str_eqb_neq in E.
    destruct (str_eq_dec k0 k); [congruence|].
    rewrite IH; destruct (in_dec str_eq_dec k (map fst d)); reflexivity.
Qed.

Lemma dict_get_snoc k k' v (d : dict) :
  dict_get k (d ++ [(k', v)]) =
    match dict_get k d with
    | Some x => Some x
    | None => if str_eq_dec k k' then Some v else None
    end.
Proof.
  unfold dict_get; induction d as [|[k0 v0] d IH]; simpl.
  - unfold str_eqb; destruct (str_eq_dec k k'); reflexivity.
  - destruct (str_eqb k k0); [reflexivity | exact IH].
Qed.

Section MoreConfiguration.
Context {P : Platform}.

Lemma get_config_replace_fold values (d : dict) :
  Forall (fun v => ~ malformed v) values ->
  get_config_replace values d =
    ret (fold_left
           (fun d each => dict_set (fst (replace_pair each))
                            (snd (replace_pair each)) d)
           values d).
Proof.
  intros H; revert d; induction H as [|v values Hv _ IH]; intros d;
    [reflexivity|].
  cbn [get_config_replace fold_left].
  destruct (length (str_split "="%char v) =? 2) eqn:E.
  - apply IH.
  - apply malformed_split in E; contradiction.
Qed.

(** X9.  Well-formed [--replace] values are all stored, in order: when a
    source comes twice the later target replaces the earlier one, the keys
    that were there keep their places, and no key comes twice. *)
Theorem replace_mapping_last_wins (values : list str) (d : dict) (w : World) :
  Forall (fun v => ~ malformed v) values ->
  exists d',
    get_config_replace values d w = (w, Ok d') /\
    (forall k,
       dict_get k d' =
         match dict_get k (rev (map replace_pair values)) with
         | Some target => Some target
         | None => dict_get k d
         end) /\
    (exists added, map fst d' = map fst d ++ added) /\
    (NoDup (map fst d) -> NoDup (map fst d')).
Proof.
  intros H; rewrite (get_config_replace_fold values d H).
  eexists; split; [reflexivity|]; clear H w.
  revert d; induction values as [|v values IH]; intros d.
  - split; [reflexivity|]; split; [exists []; now rewrite app_nil_r | auto].
  - cbn [fold_left map rev].
    destruct (IH (dict_set (fst (replace_pair v)) (snd (replace_pair v)) d))
      as (Hget & (added & Hkeys) & Hnd).
    split; [|split].
    + intros k; rewrite Hget.
      destruct (replace_pair v) as [k1 v1]; cbn [fst snd].
      rewrite dict_get_snoc, dict_get_set.
      destruct (dict_get k (rev (map replace_pair values))); [reflexivity|].
      destruct (str_eq_dec k k1); reflexivity.
    + rewrite Hkeys, dict_set_keys.
      destruct (in_dec str_eq_dec _ (map fst d)).
      * now exists added.
      * eexists; rewrite <- app_assoc; reflexivity.
    + intros Hd; apply Hnd; rewrite dict_set_keys.
      destruct (in_dec str_eq_dec _ (map fst d)) as [Hin|Hout]; [exact Hd|].
      apply NoDup_app; [exact Hd | repeat constructor; intros [] |].
      intros x Hx [<-|[]]; contradiction.
Qed.

(** X10.  The first malformed [--replace] value ends the parsing: its
    diagnostic is the only line printed, whatever comes after it. *)
Theorem first_malformed_reported (good : list str) (bad : str)
    (rest : list str) (d : dict) (w : World) :
  Forall (fun v => ~ malformed v) good ->
  malformed bad ->
  get_config_replace (good ++ bad :: rest) d w =
    (print (replace_error bad) w, Raise (SystemExit 1)).
Proof.
  intros Hgood Hbad; revert d; induction Hgood as [|v good Hv _ IH]; intros d.
  - cbn [app get_config_replace].
    apply malformed_split in Hbad; rewrite Hbad; reflexivity.
  - cbn [app get_config_replace].
    destruct (length (str_split "="%char v) =? 2) eqn:E.
    + apply IH.
    + apply malformed_split in E; contradiction.
Qed.


End MoreConfiguration.

Lemma drop_while_clean {A} (p : A -> bool) (l : list A) :
  (forall a r, l = a :: r -> p a = false) -> drop_while p l = l.
Proof.
  destruct l as [|a l]; [reflexivity|]; intros H; simpl.
  now rewrite (H a l eq_refl).
Qed.

Lemma mem_single q c : mem [q] c = Ascii.eqb c q.
Proof. unfold mem; simpl; apply orb_false_r. Qed.

(** Stripping one kind of quote from a part wrapped in that quote. *)
Lemma str_strip_wrapped (q : ascii) (s : str) :
  (forall c r, s = c :: r \/ s = r ++ [c] -> c <> q) ->
  str_strip [q] s = s /\ str_strip [q] (q :: s ++ [q]) = s.
Proof.
  intros Hs.
  assert (Hl : drop_while (mem [q]) s = s).
  { apply drop_while_clean; intros a r E; rewrite mem_single.
    apply Ascii.eqb_neq, (Hs a r); now left. }
  assert (Hr : drop_while (mem [q]) (rev s) = rev s).
  { apply drop_while_clean; intros a r E; rewrite mem_single.
    apply Ascii.eqb_neq, (Hs a (rev r)); right.
    rewrite <- (rev_involutive s), E; reflexivity. }
  unfold str_strip, str_rstrip, str_lstrip; split.
  - now rewrite Hl, Hr, rev_involutive.
  - cbn [drop_while]; rewrite mem_single, Ascii.eqb_refl.
    destruct s as [|c s].
    + cbn [app drop_while]; rewrite mem_single, Ascii.eqb_refl; reflexivity.
    + assert (Hc : mem [q] c = false).
      { rewrite mem_single; apply Ascii.eqb_neq, (Hs c s); now left. }
      cbn [app drop_while]; rewrite Hc.
      change (c :: s ++ [q]) with ((c :: s) ++ [q]).
      rewrite rev_app_distr; cbn [rev app drop_while].
      rewrite mem_single, Ascii.eqb_refl.
      change (rev s ++ [c]) with (rev (c :: s)).
      now rewrite Hr, rev_involutive.
Qed.

(** X12.  The order of the two [strip] calls shows in nested quotes: a
    part in double quotes inside single quotes loses both layers, a part in
    single quotes inside double quotes keeps its single quotes. *)
Theorem strip_quotes_nested (part : str) :
  (forall c r, part = c :: r \/ part = r ++ [c] ->
               c <> "'"%char /\ c <> "034"%char) ->
  strip_quotes ("'"%char :: "034"%char :: part ++ ["034"%char; "'"%char])
  = part /\
  strip_quotes ("034"%char :: "'"%char :: part ++ ["'"%char; "034"%char])
  = "'"%char :: part ++ ["'"%char].
Proof.
  intros Hpart; unfold strip_quotes, quote1, quote2; cbn [lit list_ascii_of_string].
  assert (H2 : forall c r, part = c :: r \/ part = r ++ [c] -> c <> "034"%char)
    by (intros c r H; apply (Hpart c r H)).
  set (sq := "'"%char); set (dq := "034"%char).
  assert (Hends : forall (x y : ascii) (s : str) c r,
            x <> y ->
            (x :: s ++ [x] = c :: r \/ x :: s ++ [x] = r ++ [c]) -> c <> y).
  { intros x y s c r Hxy [E|E].
    - injection E as <- _; exact Hxy.
    - change (x :: s ++ [x]) with ((x :: s) ++ [x]) in E.
      apply app_inj_tail in E as [_ <-]; exact Hxy. }
  assert (Hsd : sq <> dq) by discriminate.
  assert (Hds : dq <> sq) by discriminate.
  split.
  - replace (sq :: dq :: part ++ [dq; sq])
      with (sq :: (dq :: part ++ [dq]) ++ [sq])
      by (simpl; now rewrite <- app_assoc).
    destruct (str_strip_wrapped sq (dq :: part ++ [dq])) as [_ E1];
      [intros c r; now apply Hends|].
    destruct (str_strip_wrapped dq part H2) as [_ E2].
    rewrite E1; exact E2.
  - replace (dq :: sq :: part ++ [sq; dq])
      with (dq :: (sq :: part ++ [sq]) ++ [dq])
      by (simpl; now rewrite <- app_assoc).
    destruct (str_strip_wrapped sq (dq :: (sq :: part ++ [sq]) ++ [dq]))
      as [E1 _]; [intros c r; now apply Hends|].
    destruct (str_strip_wrapped dq (sq :: part ++ [sq])) as [_ E2];
      [intros c r; now apply Hends|].
    rewrite E1; exact E2.
Qed.

(** * Further properties of folders and of the run *)

Lemma nth_error_list_set_same {A} (l : list A) i x :
  i < length l -> nth_error (list_set i x l) i = Some x.
Proof.
  revert i; induction l as [|a l IH]; intros [|i] H; simpl in *;
    try lia; [reflexivity | apply IH; lia].
Qed.

Lemma list_set_length {A} (l : list A) i x : length (list_set i x l) = length l.
Proof.
  revert i; induction l as [|a l IH]; intros [|i]; simpl; auto.
Qed.

Section MoreFolders.
Context {P : Platform} {L : PlatformLaws P}.

(** An extension that beats every other one is the majority. *)
Lemma strict_winner (self : Folder) (e : str) :
  In e (folded_extensions (files self)) ->
  (forall e', e' <> e ->
     count_occ str_eq_dec (folded_extensions (files self)) e'
     < count_occ str_eq_dec (folded_extensions (files self)) e) ->
  majority_body self = Ok e.
Proof.
  intros Hin Hwin.
  destruct (majority_body_spec self) as [[Hnil _]|(m & -> & _ & Hmax & _)].
  - rewrite Hnil in Hin; contradiction.
  - destruct (str_eq_dec m e) as [->|Hne]; [reflexivity|exfalso].
    specialize (Hwin m Hne); specialize (Hmax e); lia.
Qed.

(** X13.  When one case-folded extension occurs more often than every
    other, it is the majority, in whatever order the files were listed. *)
Theorem majority_strict_winner (self : Folder) (e : str) :
  In e (folded_extensions (files self)) ->
  (forall e', e' <> e ->
     count_occ str_eq_dec (folded_extensions (files self)) e'
     < count_occ str_eq_dec (folded_extensions (files self)) e) ->
  majority_body self = Ok e /\
  (forall other : Folder,
     Permutation (folded_extensions (files other))
       (folded_extensions (files self)) ->
     majority_body other = Ok e).
Proof.
  intros Hin Hwin; split; [now apply strict_winner|].
  intros other Hperm; apply strict_winner.
  - eapply Permutation_in; [symmetry; exact Hperm | exact Hin].
  - intros e' Hne.
    rewrite !(proj1 (Permutation_count_occ str_eq_dec _ _) Hperm).
    now apply Hwin.
Qed.

(** X14.  Once read, [majority] stays: a second read gives the same value
    without looking at the files, also after [parse_contents] has replaced
    them. *)
Theorem majority_is_kept (self self' : Folder) (m : str) :
  Folder_majority self = Ok (m, self') ->
  files self' = files self /\
  Folder_majority self' = Ok (m, self') /\
  (forall (w w'' : World) (self'' : Folder),
     parse_contents self' w = (w'', Ok self'') ->
     Folder_majority self'' = Ok (m, self'')).
Proof.
  intros Hread.
  assert (Hcell : majority_cell self' = Some m /\ files self' = files self).
  { unfold Folder_majority in Hread.
    destruct (majority_cell self) as [m0|] eqn:Hc.
    - injection Hread as <- <-; auto.
    - destruct (majority_body self) as [m0|e]; [|discriminate].
      injection Hread as <- <-; auto. }
  destruct Hcell as [Hcell Hfiles].
  split; [exact Hfiles|]; split.
  - unfold Folder_majority; now rewrite Hcell.
  - intros w w'' self''; unfold parse_contents, bind, query, ret.
    destruct (os_listdir (Folder_path self') w) as [listing|e]; [|discriminate].
    intros E; injection E as _ <-.
    unfold Folder_majority; cbn [majority_cell set_files]; now rewrite Hcell.
Qed.

Lemma scanned_cell_none (self : Folder) :
  scanned self -> (forall file, In file (files self) -> File_ext file = []) ->
  majority_cell self = None /\ majority_body self = Raise IndexError.
Proof.
  intros (Hmaj & _ & _) Hnone.
  destruct (majority_body_spec self) as [[_ Hbody]|(m & Hm & Hin & _)].
  - split; [|exact Hbody].
    destruct (majority_cell self) as [m|]; [|reflexivity].
    specialize (Hmaj m eq_refl); congruence.
  - exfalso.
    rewrite (proj2 (folded_extensions_nil (files self)) Hnone) in Hin.
    contradiction.
Qed.

(** A turn in a folder whose [majority] cannot be computed. *)
Lemma run_turn_raises (self : Folder) (config : Config)
    (callback : str -> M unit) (file : File) (i : nat) (w : World) :
  majority_cell self = None -> majority_body self = Raise IndexError ->
  nth_error (files self) i = Some file ->
  run_turn config callback self i w = (w, Raise IndexError).
Proof.
  intros Hcell Hbody Hfile; unfold run_turn; rewrite Hfile.
  unfold bind, lift, Folder_majority; now rewrite Hcell, Hbody.
Qed.

(** X15.  In a folder where no file has an extension, [run] does nothing
    to the world; it returns when the folder is empty and raises
    [IndexError] at the first file otherwise. *)
Theorem run_without_extensions (target_folder : Folder) (config : Config)
    (callback : str -> M unit) (w : World) :
  scanned target_folder ->
  (forall file, In file (files target_folder) -> File_ext file = []) ->
  run target_folder config callback w =
    (w, match files target_folder with
        | [] => Ok target_folder
        | _ :: _ => Raise IndexError
        end).
Proof.
  intros Hscan Hnone.
  destruct (scanned_cell_none target_folder Hscan Hnone) as [Hcell Hbody].
  unfold run.
  destruct (files target_folder) as [|file rest] eqn:Hfiles; [reflexivity|].
  cbn [length seq for_each]; unfold bind at 1.
  rewrite (run_turn_raises target_folder config callback file 0 w Hcell Hbody);
    [reflexivity | now rewrite Hfiles].
Qed.

Section Turns.
Variables (config : Config) (callback : str -> M unit).
Variables (start : Folder) (majority : str).
Hypothesis Hfresh :
  Forall (fun file => old_filename file = filename file /\
                      new_filename file = filename file) (files start).
Hypothesis Hmajority : majority_body start = Ok majority.

Lemma list_set_same {A} (l : list A) i x :
  nth_error l i = Some x -> list_set i x l = l.
Proof.
  revert i; induction l as [|a l IH]; intros [|i] H; simpl in *;
    try discriminate; [now injection H as -> | now rewrite IH].
Qed.

(** A turn that returns leaves the file of its index as a completed run
    does, and the other files as they were. *)
Lemma run_turn_ok k self file (w w' : World) self' :
  turn_inv start majority k self ->
  nth_error (files start) k = Some file ->
  run_turn config callback self k w = (w', Ok self') ->
  files self' =
    list_set k (renamed_file majority (padding_body start) (replace config) file)
      (files self) /\
  Folder_path self' = Folder_path self /\
  turn_inv start majority (S k) self'.
Proof.
  intros Hinv Hk.
  assert (Hself : nth_error (files self) k = Some file)
    by (rewrite (inv_rest _ _ _ _ Hinv k (Nat.le_refl k)); exact Hk).
  assert (Hnew : new_filename file = old_filename file).
  { rewrite Forall_forall in Hfresh.
    destruct (Hfresh file (nth_error_In _ _ Hk)); congruence. }
  unfold run_turn; rewrite Hself.
  unfold bind at 1, lift, Folder_majority, renamed_file.
  assert (Hbody : majority_body self = Ok majority).
  { rewrite <- Hmajority; apply same_file_majority, (inv_same _ _ _ _ Hinv). }
  assert (Hpad : padding_body self = padding_body start)
    by (apply same_file_padding, (inv_same _ _ _ _ Hinv)).
  assert (Hcell : forall m, majority_cell self = Some m -> m = majority).
  { intros m E; destruct (inv_majority _ _ _ _ Hinv); congruence. }
  assert (Hpcell : forall p, padding_cell self = Some p -> p = padding_body start).
  { intros p E; destruct (inv_padding _ _ _ _ Hinv); congruence. }
  set (self1 := match majority_cell self with
                | Some _ => self
                | None => {| Folder_path := Folder_path self;
                             files := files self;
                             majority_cell := Some majority;
                             padding_cell := padding_cell self |}
                end).
  assert (E1 : match majority_cell self with
               | Some m => Ok (m, self)
               | None => match majority_body self with
                         | Ok m => Ok (m, {| Folder_path := Folder_path self;
                                             files := files self;
                                             majority_cell := Some m;
                                             padding_cell := padding_cell self |})
                         | Raise e => Raise e
                         end
               end = Ok (majority, self1)).
  { subst self1; destruct (majority_cell self) as [m|] eqn:Ec.
    - now rewrite (Hcell m eq_refl).
    - now rewrite Hbody. }
  rewrite E1; clear E1.
  assert (H1 : files self1 = files self /\ Folder_path self1 = Folder_path self
               /\ padding_cell self1 = padding_cell self
               /\ (majority_cell self1 = None \/ majority_cell self1 = Some majority)).
  { subst self1; destruct (majority_cell self) as [m|] eqn:Ec; cbn; auto.
    repeat split; right; rewrite Ec; f_equal; now apply Hcell. }
  destruct H1 as (Hf1 & Hp1 & Hc1 & Hm1).
  destruct (looks_like_target file majority).
  - unfold Folder_padding; rewrite Hc1.
    set (self2 := match padding_cell self with
                  | Some _ => self1
                  | None => {| Folder_path := Folder_path self1;
                               files := files self1;
                               majority_cell := majority_cell self1;
                               padding_cell := Some (padding_body self1) |}
                  end).
    assert (E2 : match padding_cell self with
                 | Some p => (p, self1)
                 | None => (padding_body self1,
                            {| Folder_path := Folder_path self1;
                               files := files self1;
                               majority_cell := majority_cell self1;
                               padding_cell := Some (padding_body self1) |})
                 end = (padding_body start, self2)).
    { subst self2; destruct (padding_cell self) as [p|] eqn:Ec.
      - now rewrite (Hpcell p eq_refl).
      - f_equal; rewrite <- Hpad; unfold padding_body; now rewrite Hf1. }
    rewrite E2; clear E2.
    assert (H2 : files self2 = files self /\ Folder_path self2 = Folder_path self
                 /\ (majority_cell self2 = None \/ majority_cell self2 = Some majority)
                 /\ (padding_cell self2 = None
                     \/ padding_cell self2 = Some (padding_body start))).
    { subst self2; destruct (padding_cell self) as [p|] eqn:Ec; cbn.
      - repeat split; auto; right; rewrite Hc1; try rewrite Ec; f_equal;
          now apply Hpcell.
      - repeat split; auto; right; f_equal.
        rewrite <- Hpad; unfold padding_body; now rewrite Hf1. }
    destruct H2 as (Hf2 & Hp2 & Hm2 & Hc2).
    assert (Hfinal : forall file',
              same_file file' file ->
              turn_inv start majority (S k)
                (set_files self2 (list_set k file' (files self2)))).
    { intros file' Hsame; constructor; cbn [files set_files majority_cell
                                              padding_cell]; auto.
      - rewrite Hf2; apply Forall2_list_set with (y := file);
          [apply (inv_same _ _ _ _ Hinv) | exact Hk | exact Hsame].
      - intros j Hj; rewrite Hf2, nth_error_list_set_other by lia.
        apply (inv_rest _ _ _ _ Hinv); lia. }
    unfold rename_to_pattern.
    destruct (str_eqb (get_new_filename file (padding_body start)
                         (replace config)) (old_filename file)) eqn:Eq;
      cbn [negb].
    + unfold bind, ret; intros E; injection E as _ <-.
      cbn [files set_files Folder_path]; rewrite Hf2.
      apply str_eqb_eq in Eq.
      assert (Efile : set_new_filename file
                        (get_new_filename file (padding_body start)
                           (replace config)) = file).
      { rewrite Eq, <- Hnew; destruct file; reflexivity. }
      rewrite Efile; split; [reflexivity|]; split; [exact Hp2|].
      rewrite <- Hf2; apply Hfinal; repeat split.
    + unfold bind, do_rename, ret.
      destruct (Path_rename _ _ w) as [w1 [e|]]; [discriminate|].
      cbn [renamed_message].
      destruct (callback _ w1) as [w2 [[]|e]]; [|discriminate].
      intros E; injection E as _ <-.
      cbn [files set_files Folder_path]; rewrite Hf2.
      split; [reflexivity|]; split; [exact Hp2|].
      rewrite <- Hf2; apply Hfinal; repeat split.
  - unfold ret; intros E; injection E as _ <-.
    rewrite Hf1, (list_set_same _ _ _ Hself).
    split; [reflexivity|]; split; [exact Hp1|].
    constructor; auto.
    + rewrite Hf1; apply (inv_same _ _ _ _ Hinv).
    + intros j Hj; rewrite Hf1; apply (inv_rest _ _ _ _ Hinv); lia.
    + rewrite Hc1; apply (inv_padding _ _ _ _ Hinv).
Qed.

Lemma run_loop_files n : forall k self (w w' : World) self',
  k + n = length (files start) ->
  turn_inv start majority k self ->
  (forall j, j < k ->
     nth_error (files self) j =
       option_map (renamed_file majority (padding_body start) (replace config))
         (nth_error (files start) j)) ->
  for_each (run_turn config callback) self (seq k n) w = (w', Ok self') ->
  (forall j,
     nth_error (files self') j =
       option_map (renamed_file majority (padding_body start) (replace config))
         (nth_error (files start) j)) /\
  Folder_path self' = Folder_path self.
Proof.
  induction n as [|n IH]; intros k self w w' self' Hlen Hinv Hdone Hrun.
  - cbn in Hrun; unfold ret in Hrun; injection Hrun as _ <-.
    split; [|reflexivity]; intros j.
    destruct (Nat.lt_ge_cases j k) as [Hj|Hj]; [now apply Hdone|].
    rewrite (inv_rest _ _ _ _ Hinv j Hj).
    assert (Hnone : nth_error (files start) j = None)
      by (apply nth_error_None; lia).
    now rewrite Hnone.
  - destruct (nth_error (files start) k) as [file|] eqn:Hk;
      [|apply nth_error_None in Hk; lia].
    cbn [seq for_each] in Hrun; unfold bind at 1 in Hrun.
    destruct (run_turn config callback self k w) as [w1 [self1|e]] eqn:Hturn;
      [|discriminate].
    destruct (run_turn_ok _ _ _ _ _ _ Hinv Hk Hturn) as (Hfiles & Hpath & Hinv1).
    destruct (IH (S k) self1 w1 w' self') as [Hall Hp]; try assumption; [lia| |].
    + intros j Hj; rewrite Hfiles.
      assert (Hklen : k < length (files self)).
      { apply nth_error_Some.
        rewrite (inv_rest _ _ _ _ Hinv k (Nat.le_refl k)), Hk; discriminate. }
      destruct (Nat.eq_dec j k) as [->|Hne].
      * now rewrite nth_error_list_set_same, Hk.
      * rewrite nth_error_list_set_other by lia; apply Hdone; lia.
    + split; [exact Hall | congruence].
Qed.

End Turns.

(** X16.  When [run] returns, the folder holds the same files in the same
    order: every file whose extension matches the majority carries its
    computed name in [new_filename], every other file is untouched, and no
    original name has changed. *)
Theorem run_final_files (target_folder folder' : Folder) (config : Config)
    (callback : str -> M unit) (w w' : World) (majority : str) :
  scanned target_folder ->
  majority_body target_folder = Ok majority ->
  run target_folder config callback w = (w', Ok folder') ->
  files folder' =
    map (renamed_file majority (padding_body target_folder) (replace config))
      (files target_folder) /\
  Folder_path folder' = Folder_path target_folder /\
  map old_filename (files folder') = map old_filename (files target_folder).
Proof.
  intros (Hmaj & Hpad & Hfresh) Hbody Hrun.
  assert (Hinv : turn_inv target_folder majority 0 target_folder).
  { constructor; auto using Forall2_same_refl.
    - destruct (majority_cell target_folder) as [m|]; [right|now left].
      specialize (Hmaj m eq_refl); congruence.
    - destruct (padding_cell target_folder) as [p|]; [right|now left].
      now rewrite (Hpad p eq_refl). }
  destruct (run_loop_files config callback target_folder majority Hfresh Hbody
              (length (files target_folder)) 0 target_folder w w' folder'
              eq_refl Hinv) as [Hall Hpath]; [intros j Hj; lia | exact Hrun|].
  assert (Hfiles : files folder' =
            map (renamed_file majority (padding_body target_folder)
                   (replace config)) (files target_folder)).
  { apply nth_error_ext; intros j; rewrite Hall; symmetry; apply nth_error_map. }
  split; [exact Hfiles|]; split; [exact Hpath|].
  rewrite Hfiles, map_map; apply map_ext; intros file.
  unfold renamed_file; destruct (looks_like_target file majority); reflexivity.
Qed.

End MoreFolders.


(** * The whole program *)

Section Main.
Context {P : Platform} {L : PlatformLaws P}.



End Main.


(** * Where the padding lands *)

Lemma take_while_all_app {A} (p : A -> bool) (l1 l2 : list A) :
  Forall (fun a => p a = true) l1 ->
  take_while p (l1 ++ l2) = l1 ++ take_while p l2 /\
  drop_while p (l1 ++ l2) = drop_while p l2.
Proof.
  induction 1 as [|a l1 Ha _ [IH1 IH2]]; simpl; [auto|].
  rewrite Ha, IH1, IH2; auto.
Qed.

(** A digit-free prefix passes through the padding. *)
Lemma add_padding_after_prefix (pre x : str) padding :
  Forall (fun c => is_digit c = false) pre ->
  add_padding (pre ++ x) padding = pre ++ add_padding x padding.
Proof.
  intros Hpre.
  assert (Hpre' : Forall (fun c => non_digit c = true) pre).
  { eapply Forall_impl; [|exact Hpre]; intros c; apply non_digit_true. }
  destruct (take_while_all_app non_digit pre x Hpre') as [Et Ed].
  rewrite !add_padding_eq; unfold leading, digits_of, trailing.
  rewrite Et, Ed.
  destruct (take_while is_digit (drop_while non_digit x)); cbn [truthy];
    [reflexivity | now rewrite <- app_assoc].
Qed.

(** What follows a name that holds a digit passes through the padding,
    when it does not start with a digit. *)
Lemma add_padding_before_suffix (x y : str) padding :
  Exists (fun c => is_digit c = true) x ->
  (forall c r, y = c :: r -> is_digit c = false) ->
  add_padding (x ++ y) padding = add_padding x padding ++ y.
Proof.
  intros Hdigit Hy.
  assert (Hne : digits_of x <> []) by now apply digits_of_some.
  destruct (scan_first_digit_run x Hne) as (Hx & Hp & _ & Hb & Hs).
  assert (Hrun : first_digit_run (x ++ y) (leading x) (digits_of x)
                   (trailing x ++ y)).
  { repeat split; try assumption.
    - rewrite Hx at 1; now rewrite <- !app_assoc.
    - intros c r E; destruct (trailing x) as [|t ts].
      + now apply (Hy c r).
      + injection E as <- _; now apply (Hs t ts). }
  destruct (first_digit_run_scan _ _ _ _ Hrun) as (El & Ed & Et).
  rewrite !add_padding_eq, <- El, <- Ed, <- Et.
  destruct (digits_of x); [congruence|]; cbn [truthy].
  now rewrite <- !app_assoc.
Qed.

Section PaddingAndExtension.
Context {P : Platform}.

(** X18.  For a bare file name with an extension: when the stem holds a
    digit, the padding goes into the stem and the extension is kept; when
    the stem holds none, the padding goes into the extension, whose first
    digit run, if it has one, is widened. *)
Theorem padding_and_extension (file : File) (padding : Z) :
  Path_name (filename file) = old_filename file ->
  File_ext file <> [] ->
  (Exists (fun c => is_digit c = true) (File_name file) ->
   get_new_filename file padding [] =
     add_padding (File_name file) padding ++ "."%char :: File_ext file) /\
  (Forall (fun c => is_digit c = false) (File_name file) ->
   get_new_filename file padding [] =
     File_name file ++ "."%char :: add_padding (File_ext file) padding).
Proof.
  intros Hname Hext.
  assert (Hcut : old_filename file
                 = File_name file ++ "."%char :: File_ext file).
  { unfold File_name.
    destruct (PurePath_split (Path_name (filename file)))
      as [[E _]|(e & E & _ & _ & _ & Hcut)].
    - exfalso; apply Hext; unfold File_ext; now rewrite E.
    - rewrite (File_ext_suffix file e E), <- Hname; exact Hcut. }
  unfold get_new_filename; cbn [fold_left]; rewrite Hcut; split.
  - intros Hdigit; apply add_padding_before_suffix; [exact Hdigit|].
    intros c r E; injection E as <- _; reflexivity.
  - intros Hfree.
    change (File_name file ++ "."%char :: File_ext file)
      with (File_name file ++ ["."%char] ++ File_ext file).
    rewrite app_assoc, add_padding_after_prefix, <- app_assoc; [reflexivity|].
    apply Forall_app; split; [exact Hfree | repeat constructor].
Qed.

End PaddingAndExtension.


(** * The script on the concrete platform *)

#[local] Existing Instance Demo.platform.


Lemma Demo_laws : PlatformLaws Demo.platform.
Proof. intros [|c s]; simpl; split; congruence. Qed.

(** The end-to-end scenario: two files renamed, two lines reported. *)
Example run_photos :
  let '(w, r) := (folder <- get_target_folder (lit "/photos") ;;
                  run folder no_replace do_print) Demo.photos in
  map fst (Demo.entries w) =
    [lit "/photos"; lit "/photos/01.jpg"; lit "/photos/02.jpg";
     lit "/photos/10.jpg"; lit "/photos/readme.txt"] /\
  Demo.printed w =
    [["009"%char] ++ lit "Renamed 1.jpg to 01.jpg";
     ["009"%char] ++ lit "Renamed 2.jpg to 02.jpg"] /\
  exists folder, r = Ok folder.
Proof. vm_compute; repeat split; eexists; reflexivity. Qed.

(** The whole program on the same directory: the status line, then the
    two reports. *)
Example main_photos :
  let '(w, r) := main [lit "numerator"] Demo.photos in
  Demo.printed w =
    [lit "Renaming files in " ++ ["034"%char] ++ lit "/photos" ++ ["034"%char]
     ++ lit " to padding 2";
     ["009"%char] ++ lit "Renamed 1.jpg to 01.jpg";
     ["009"%char] ++ lit "Renamed 2.jpg to 02.jpg"] /\
  r = Ok tt.
Proof. vm_compute; split; reflexivity. Qed.

Example parse_args_samples :
  map (fun args => snd (Demo.parse (map lit args) Demo.photos))
    [ ["--help"]; ["--verbose"]; ["--path"]; ["--verbose"; "--help"];
      ["--path"; "--help"]; ["--replace"; "a=b"; "--replace"; "=x"]; [] ]%string
  = [ Raise (SystemExit 0); Raise (SystemExit 2); Raise (SystemExit 2);
      Raise (SystemExit 0); Raise (SystemExit 2);
      Ok {| ns_path := None; ns_replace := Some [lit "a=b"; lit "=x"] |};
      Ok {| ns_path := None; ns_replace := None |} ].
Proof. reflexivity. Qed.

Example extensions_and_stems :
  map (fun name => (File_ext (photo name), File_name (photo name)))
    ["a.jpg"; ".gitignore"; "a."; "a.b.c"; "IMG.JPG"; "abc"]%string
  = [ (lit "jpg", lit "a"); ([], lit ".gitignore"); ([], lit "a.");
      (lit "c", lit "a.b"); (lit "JPG", lit "IMG"); ([], lit "abc") ].
Proof. reflexivity. Qed.

Example get_target_folder_photos :
  get_target_folder (lit "/photos") Demo.photos = (Demo.photos, Ok photos_folder).
Proof. reflexivity. Qed.

Example majority_jpg_png :
  majority_body (scan_of ["a.jpg"; "b.jpg"; "c.png"]%string) = Ok (lit "jpg").
Proof. reflexivity. Qed.

Example majority_first_of_tied :
  majority_body (scan_of ["x.png"; "a.jpg"; "b.JPG"; "y.PNG"; "z.gif"]%string)
  = Ok (lit "png").
Proof. reflexivity. Qed.

Example looks_like_target_upper :
  looks_like_target (photo "IMG.JPG") (lit "jpg") = true.
Proof. reflexivity. Qed.

Example get_config_bad_replace :
  get_config [lit "--replace"; lit "a=b=c"] Demo.photos =
    (Demo.emit (replace_error (lit "a=b=c")) Demo.photos, Raise (SystemExit 1)).
Proof. reflexivity. Qed.

Example get_config_missing_directory :
  get_config [lit "--path"; lit "/nowhere"] Demo.photos =
    (Demo.emit (lit "Directory does not exist: /nowhere") Demo.photos,
     Raise (SystemExit 1)).
Proof. reflexivity. Qed.

Example add_padding_2 : add_padding (lit "2.jpg") 3 = lit "002.jpg".
Proof. reflexivity. Qed.

Example add_padding_10 : add_padding (lit "10.jpg") 3 = lit "010.jpg".
Proof. reflexivity. Qed.

Example add_padding_cam :
  add_padding (lit "cam2-0007.jpg") 3 = lit "cam002-0007.jpg".
Proof. reflexivity. Qed.

Example str_replace_overlap :
  str_replace (lit "aaa") (lit "aa") (lit "b") = lit "ba".
Proof. reflexivity. Qed.

(** ** Witnesses *)

Lemma run_effects_witness :
  effects (run photos_folder no_replace do_print Demo.photos) =
    (renamed_photos, None) /\
  effects (run renamed_folder no_replace do_print renamed_photos) =
    (renamed_photos, Some (OSError Demo.ENOENT)).
Proof.
  split.
  - exact (@run_effects Demo.platform Demo_laws photos_folder no_replace
             do_print Demo.photos).
  - exact (@run_effects Demo.platform Demo_laws renamed_folder no_replace
             do_print renamed_photos).
Defined.

Lemma majority_spec_witness :
  let exts := folded_extensions (files photos_folder) in
  exists m self',
    Folder_majority photos_folder = Ok (m, self') /\
    In m exts /\
    (forall e, count_occ str_eq_dec exts e <= count_occ str_eq_dec exts m) /\
    (forall e, e <> m ->
       count_occ str_eq_dec exts e = count_occ str_eq_dec exts m ->
       exists l1 l2, exts = l1 ++ m :: l2 /\ ~ In e l1).
Proof.
  apply (@majority_spec Demo.platform Demo_laws photos_folder).
  - reflexivity.
  - exists (photo "1.jpg"); split.
    + left; reflexivity.
    + discriminate.
Defined.

Lemma majority_fails_iff_witness :
  Folder_majority (scan_of ["README"; "Makefile"]%string) = Raise IndexError.
Proof.
  apply (proj1 (@majority_fails_iff Demo.platform Demo_laws
                  (scan_of ["README"; "Makefile"]%string) eq_refl)).
  intros file [<-|[<-|[]]]; reflexivity.
Defined.

Lemma replace_value_stored_witness :
  get_config_replace (P := Demo.platform) [lit "''a''=b"] [] =
    ret [(lit "a", lit "b")].
Proof.
  apply (proj1 (@replace_value_stored Demo.platform
                  (lit "''a''") (lit "b") [] []
                  ltac:(simpl; intuition discriminate)
                  ltac:(simpl; intuition discriminate))).
Defined.

Lemma empty_source_replace_witness :
  get_config [lit "--replace"; lit "=x"] Demo.photos =
    (Demo.photos, Ok {| cwd := lit "/photos"; replace := [([], lit "x")] |}) /\
  get_new_filename (photo "1.jpg") 2 [([], lit "x")] = lit "x0x1x.xjxpxgx".
Proof.
  pose proof (@empty_source_replace Demo.platform (lit "x")
                ltac:(simpl; intuition discriminate)) as (_ & Hconfig & Hname).
  split.
  - exact (Hconfig [lit "--replace"; lit "=x"] Demo.photos Demo.photos None
             eq_refl eq_refl).
  - exact (Hname (photo "1.jpg") 2%Z (lit "x")).
Defined.

(** ** Counterexamples *)


(** C4 as stated: after a run, no file of the folder has a computed name
    that differs from its current name, and yet a second run does not
    leave the files alone: it asks again for the move of [1.jpg], which is
    gone, and ends there; had a new [1.jpg] appeared in the meantime, it
    would be moved over [01.jpg] and reported. *)
Lemma run_again_counterexample :
  run photos_folder no_replace do_print Demo.photos =
    (renamed_photos, Ok renamed_folder) /\
  Folder_majority renamed_folder = Ok (lit "jpg", renamed_folder) /\
  Folder_padding renamed_folder = (2%Z, renamed_folder) /\
  filter (eligible (lit "jpg") 2 []) (files renamed_folder) = [] /\
  run renamed_folder no_replace do_print renamed_photos =
    (renamed_photos, Raise (OSError Demo.ENOENT)) /\
  run renamed_folder no_replace do_print refilled_photos =
    ({| Demo.entries := [ (lit "/photos", false);
                          (lit "/photos/02.jpg", true);
                          (lit "/photos/10.jpg", true);
                          (lit "/photos/readme.txt", true);
                          (lit "/photos/01.jpg", true) ];
        Demo.wd := lit "/photos";
        Demo.printed := [ ["009"%char] ++ lit "Renamed 1.jpg to 01.jpg" ] |},
     Raise (OSError Demo.ENOENT)).
Proof. repeat split. Qed.

(** C8 as stated: after a first successful rename the computed name
    equals the current name, and yet a second call does not return false:
    it asks again for the rename of the original name, which is gone. *)
Lemma rename_twice_counterexample :
  let file := photo "1.jpg" in
  let renamed := set_new_filename file (lit "001.jpg") in
  let w1 := fst (Demo.rename (lit "/photos/1.jpg") (lit "/photos/001.jpg")
                   Demo.photos) in
  rename_to_pattern file 3 [] Demo.photos = (w1, Ok (true, renamed)) /\
  get_new_filename renamed 3 [] = current_name renamed /\
  rename_to_pattern renamed 3 [] w1 = (w1, Raise (OSError Demo.ENOENT)) /\
  rename_to_pattern renamed 3 [] w1 <> (w1, Ok (false, renamed)).
Proof. repeat split; discriminate. Qed.

(** C9 as stated: the part [''a''] is stored as [a], not with one layer
    of quotes left. *)
Lemma strip_one_layer_counterexample :
  get_config [lit "--replace"; lit "''a''=b"] Demo.photos =
    (Demo.photos, Ok {| cwd := lit "/photos"; replace := [(lit "a", lit "b")] |}) /\
  strip_one_layer (lit "''a''") = lit "'a'" /\
  strip_quotes (lit "''a''") <> strip_one_layer (lit "''a''").
Proof. repeat split; discriminate. Qed.

(** ** Witnesses of the further properties *)

Ltac digit_run :=
  repeat split; try (repeat constructor); try discriminate;
  intros c rest E; injection E as <- _; reflexivity.

Ltac well_formed :=
  repeat constructor; intros H; apply H; reflexivity.

Lemma add_padding_widens_witness :
  exists zeros,
    Forall (fun c => c = "0"%char) zeros /\
    first_digit_run (add_padding (lit "2.jpg") 3) [] (zeros ++ lit "2")
      (lit ".jpg") /\
    Z.of_nat (length (zeros ++ lit "2")) = Z.max 3 (Z.of_nat (length (lit "2"))) /\
    length (add_padding (lit "2.jpg") 3) = length (lit "2.jpg") + length zeros.
Proof.
  apply (add_padding_widens (lit "2.jpg") [] (lit "2") (lit ".jpg") 3).
  digit_run.
Defined.

Lemma padding_is_uniform_witness :
  exists zeros,
    first_digit_run
      (add_padding (lit "x1y") (calculate_padding [lit "x1y"; lit "23"; lit "456"]))
      (lit "x") (zeros ++ lit "1") (lit "y") /\
    Z.of_nat (length (zeros ++ lit "1"))
    = calculate_padding [lit "x1y"; lit "23"; lit "456"].
Proof.
  apply (padding_is_uniform [lit "x1y"; lit "23"; lit "456"] (lit "x1y")
           (lit "x") (lit "1") (lit "y")).
  - left; reflexivity.
  - digit_run.
Defined.

Lemma padded_width_uniform_witness :
  exists prefix body suffix,
    first_digit_run (get_new_filename (photo "1.jpg") (padding_body photos_folder) [])
      prefix body suffix /\
    Z.of_nat (length body) = padding_body photos_folder.
Proof.
  apply (padded_width_uniform (P := Demo.platform) photos_folder (photo "1.jpg")).
  - left; reflexivity.
  - reflexivity.
  - left; reflexivity.
Defined.

Lemma rename_to_pattern_noop_witness :
  get_new_filename (photo "10.jpg") 2 [(lit "x", lit "y")] = lit "10.jpg" /\
  rename_to_pattern (photo "10.jpg") 2 [(lit "x", lit "y")] Demo.photos
  = (Demo.photos, Ok (false, photo "10.jpg")).
Proof.
  apply (rename_to_pattern_noop (P := Demo.platform) (photo "10.jpg") 2 [(lit "x", lit "y")]
           Demo.photos).
  - intros prefix body suffix Hrun.
    destruct (first_digit_run_scan _ _ _ _ Hrun) as (_ & -> & _).
    cbn; lia.
  - intros source target [E|[]]; injection E as <- <-.
    intros a b E.
    assert (Hin : In "x"%char (old_filename (photo "10.jpg"))).
    { rewrite E; apply in_or_app; right; left; reflexivity. }
    cbn in Hin; intuition discriminate.
Defined.

Lemma replace_mapping_last_wins_witness :
  exists d',
    get_config_replace [lit "a=b"; lit "c=d"; lit "a=e"] [] Demo.photos
    = (Demo.photos, Ok d') /\
    (forall k,
       dict_get k d' =
         match dict_get k
                 (rev (map replace_pair [lit "a=b"; lit "c=d"; lit "a=e"])) with
         | Some target => Some target
         | None => dict_get k []
         end) /\
    (exists added, map fst d' = map fst (@nil (str * str)) ++ added) /\
    (NoDup (map fst (@nil (str * str))) -> NoDup (map fst d')).
Proof.
  apply (replace_mapping_last_wins (P := Demo.platform) [lit "a=b"; lit "c=d"; lit "a=e"] []
           Demo.photos).
  well_formed.
Defined.

Lemma first_malformed_reported_witness :
  get_config_replace ([lit "a=b"] ++ lit "c" :: [lit "d=e=f"]) [] Demo.photos =
    (print (replace_error (lit "c")) Demo.photos, Raise (SystemExit 1)).
Proof.
  apply (first_malformed_reported (P := Demo.platform) [lit "a=b"] (lit "c") [lit "d=e=f"] []
           Demo.photos).
  - well_formed.
  - discriminate.
Defined.


Lemma strip_quotes_nested_witness :
  strip_quotes ("'"%char :: "034"%char :: lit "a" ++ ["034"%char; "'"%char])
  = lit "a" /\
  strip_quotes ("034"%char :: "'"%char :: lit "a" ++ ["'"%char; "034"%char])
  = "'"%char :: lit "a" ++ ["'"%char].
Proof.
  apply (strip_quotes_nested (lit "a")).
  intros c r [E|E].
  - injection E as <- _; split; discriminate.
  - destruct r as [|x [|y r]]; try discriminate.
    injection E as <-; split; discriminate.
Defined.

Lemma majority_strict_winner_witness :
  majority_body (scan_of ["a.jpg"; "c.png"; "b.jpg"]%string) = Ok (lit "jpg") /\
  (forall other : Folder,
     Permutation (folded_extensions (files other))
       (folded_extensions (files (scan_of ["a.jpg"; "c.png"; "b.jpg"]%string))) ->
     majority_body other = Ok (lit "jpg")).
Proof.
  apply (@majority_strict_winner Demo.platform Demo_laws
           (scan_of ["a.jpg"; "c.png"; "b.jpg"]%string) (lit "jpg")).
  - left; reflexivity.
  - intros e' Hne.
    change (folded_extensions (files (scan_of ["a.jpg"; "c.png"; "b.jpg"]%string)))
      with [lit "jpg"; lit "png"; lit "jpg"].
    cbn [count_occ].
    destruct (str_eq_dec (lit "jpg") e') as [E|_]; [congruence|].
    destruct (str_eq_dec (lit "jpg") (lit "jpg")) as [_|N]; [|congruence].
    destruct (str_eq_dec (lit "png") e'), (str_eq_dec (lit "png") (lit "jpg"));
      try discriminate; lia.
Defined.

Lemma majority_is_kept_witness :
  let read := {| Folder_path := Folder_path photos_folder;
                 files := files photos_folder;
                 majority_cell := Some (lit "jpg");
                 padding_cell := None |} in
  files read = files photos_folder /\
  Folder_majority read = Ok (lit "jpg", read) /\
  (forall (w w'' : World) (self'' : Folder),
     parse_contents read w = (w'', Ok self'') ->
     Folder_majority self'' = Ok (lit "jpg", self'')).
Proof.
  exact (majority_is_kept (P := Demo.platform) photos_folder _ (lit "jpg") eq_refl).
Defined.

Lemma run_without_extensions_witness :
  run (scan_of ["README"; "Makefile"]%string) no_replace do_print Demo.photos
  = (Demo.photos, Raise IndexError).
Proof.
  apply (@run_without_extensions Demo.platform Demo_laws
           (scan_of ["README"; "Makefile"]%string) no_replace do_print
           Demo.photos).
  - split; [intros m E; discriminate|].
    split; [intros p E; discriminate | repeat constructor].
  - intros file [<-|[<-|[]]]; reflexivity.
Defined.

Lemma run_final_files_witness :
  match snd (run photos_folder no_replace do_print Demo.photos) with
  | Ok folder' =>
      map new_filename (files folder')
      = [lit "01.jpg"; lit "02.jpg"; lit "10.jpg"; lit "readme.txt"] /\
      map old_filename (files folder')
      = [lit "1.jpg"; lit "2.jpg"; lit "10.jpg"; lit "readme.txt"]
  | Raise _ => False
  end.
Proof.
  destruct (run photos_folder no_replace do_print Demo.photos)
    as [w' [folder'|e]] eqn:E; cbn [snd]; [|vm_compute in E; discriminate].
  destruct (@run_final_files Demo.platform photos_folder folder'
              no_replace do_print Demo.photos w' (lit "jpg")) as (Hf & _ & Ho);
    [ | reflexivity | exact E | ].
  - split; [intros m H; discriminate|].
    split; [intros p H; discriminate | repeat constructor].
  - rewrite Ho, Hf; split; reflexivity.
Defined.


Lemma padding_and_extension_witness :
  get_new_filename (photo "a.mp3") 3 [] = lit "a.mp003" /\
  get_new_filename (photo "7.m4v") 3 [] = lit "007.m4v".
Proof.
  split.
  - apply (proj2 (padding_and_extension (P := Demo.platform) (photo "a.mp3") 3 eq_refl
                    ltac:(discriminate))).
    repeat constructor.
  - apply (proj1 (padding_and_extension (P := Demo.platform) (photo "7.m4v") 3 eq_refl
                    ltac:(discriminate))).
    left; reflexivity.
Defined.
